(** * can-i-delete: the relation graph build and the cascade search

    A shallow embedding of [src/can-i-delete.ts].  The program reads every
    foreign key of an SQLite schema, builds a graph of [Table] objects
    around the target table ([collectRelations]) and walks it looking for
    a relation that does not cascade ([findNonCascading]).

    JavaScript objects are shared by reference and mutated in place, so
    the embedding keeps an explicit store: [heap] is the arena of [Table]
    objects, a reference to a table is its index in the arena, the
    module-level [allTables] map and [checkedTables] set are fields of the
    program state, and every function threads that state. *)

From stdpp Require Import gmap strings list fin_maps.

(** ** Data *)

(** [type RelationRecord]: one row of the foreign-key query.  [name] is
    the table that declares the key ([m.name]), [table] the table it
    references ([p.table]).  The columns [from] and [to] are never read
    by the program and are left out.  [on_delete] is the text SQLite
    reports, compared with ["CASCADE"] only. *)
Module RelationRecord.
Record t := mk { name : string; table : string; on_delete : string }.
End RelationRecord.

(** The join condition of the query at lines 58-71, [ON m.name != p.table]:
    the rows the program reads never have a table's foreign key to
    itself. *)
Definition selected (e : RelationRecord.t) : Prop :=
  RelationRecord.name e ≠ RelationRecord.table e.

(** The [owner] tag of a [TableRelation]: ["parent" | "self"]. *)
Module Owner.
Inductive t := parent | self.
End Owner.

Global Instance Owner_eq_dec : EqDecision Owner.t.
Proof. solve_decision. Defined.

(** [type TableRelation].  [parent] and [table] are references to [Table]
    objects, that is, indices in the heap. *)
Record TableRelation := {
  parent : nat;
  owner : Owner.t;
  table : nat;
  cascades : bool;
}.

(** [type Table]. *)
Record Table := {
  name : string;
  relations : list TableRelation;
  collected : bool;
}.

(** The store: the [Table] objects allocated so far and the two
    module-level collections, [const allTables = new Map<string, Table>()]
    and [const checkedTables = new Set<Table>()]. *)
Record State := {
  heap : list Table;
  allTables : gmap string nat;
  checkedTables : gset nat;
}.

(** [{ found, relationChain }], the non-null result of the search. *)
Record Result := {
  found : TableRelation;
  relationChain : list string;
}.

(** ** Store primitives *)

(** Allocation of an object literal [{ name, relations: [], collected: false }]. *)
Definition newTable (tableName : string) : Table :=
  {| name := tableName; relations := []; collected := false |}.

(** [table.collected = true] *)
Definition markCollected (T : Table) : Table :=
  {| name := name T; relations := relations T; collected := true |}.

(** [table.relations.push(r)] *)
Definition pushRelation (r : TableRelation) (T : Table) : Table :=
  {| name := name T; relations := relations T ++ [r]; collected := collected T |}.

(** In-place mutation of the object behind reference [t]; [None] on a
    dangling reference, which JavaScript cannot produce. *)
Definition mutate (t : nat) (f : Table → Table) (st : State) : option State :=
  T ← heap st !! t;
  Some {| heap := <[t := f T]> (heap st);
          allTables := allTables st;
          checkedTables := checkedTables st |}.

(** [checkedTables.add(table)] *)
Definition addChecked (t : nat) (st : State) : State :=
  {| heap := heap st;
     allTables := allTables st;
     checkedTables := {[t]} ∪ checkedTables st |}.

(** ** [tableFor] (lines 182-193) *)
Definition tableFor (tableName : string) (st : State) : nat * State :=
  match allTables st !! tableName with
  | Some existing => (existing, st)
  | None =>
      let fresh := length (heap st) in
      (fresh,
       {| heap := heap st ++ [newTable tableName];
          allTables := <[tableName := fresh]> (allTables st);
          checkedTables := checkedTables st |})
  end.

(** [dbRelation.on_delete === "CASCADE"] *)
Definition isCascade (dbRelation : RelationRecord.t) : bool :=
  bool_decide (RelationRecord.on_delete dbRelation = "CASCADE"%string).

(** ** [collectRelations] (lines 147-180)

    The recursion is not structural, so it is driven by [fuel]; running
    out of fuel is [None].  The termination theorem at the end shows
    that a fuel linear in the number of rows is always enough. *)
Section collect_loops.
(** The recursive call [collectRelations(...)]. *)
Variable recur : nat → State → option State.

(** [tableFor(other)], [table.relations.push({...})], then the
    recursive call, as both branches of the first loop do. *)
Definition relate (t : nat) (o : Owner.t) (other : string) (c : bool)
    (st : State) : option State :=
  let '(relatedTable, st) := tableFor other st in
  st ← mutate t (pushRelation
         {| parent := t; owner := o; table := relatedTable; cascades := c |}) st;
  recur relatedTable st.

(** [for (const dbRelation of relations) { ... }], on the rows still to
    be visited.  [table.name] is read from the store at every row. *)
Fixpoint collectRows (t : nat) (rows : list RelationRecord.t) (st : State)
    : option State :=
  match rows with
  | [] => Some st
  | dbRelation :: rows =>
      T ← heap st !! t;
      if decide (RelationRecord.name dbRelation = name T) then
        st ← relate t Owner.parent (RelationRecord.table dbRelation)
               (isCascade dbRelation) st;
        collectRows t rows st
      else if decide (RelationRecord.table dbRelation = name T) then
        st ← relate t Owner.self (RelationRecord.name dbRelation)
               (isCascade dbRelation) st;
        collectRows t rows st
      else collectRows t rows st
  end.

(** [for (const r of table.relations) collectRelations(r.table)].  The
    array iterator is live: it re-reads [table.relations] and its length
    at each step, so the loop is indexed by position [i] and reads the
    store at every step; [fuel] bounds the number of steps. *)
Fixpoint collectRelated (fuel : nat) (t : nat) (i : nat) (st : State)
    : option State :=
  match fuel with
  | 0 => None
  | S fuel =>
      T ← heap st !! t;
      match relations T !! i with
      | None => Some st
      | Some r =>
          st ← recur (table r) st;
          collectRelated fuel t (S i) st
      end
  end.
End collect_loops.

Fixpoint collectRelations (dbRelations : list RelationRecord.t) (fuel : nat)
    (t : nat) (st : State) : option State :=
  match fuel with
  | 0 => None
  | S fuel =>
      T ← heap st !! t;
      if collected T then Some st
      else
        st ← mutate t markCollected st;
        st ← collectRows (collectRelations dbRelations fuel) t dbRelations st;
        collectRelated (collectRelations dbRelations fuel) fuel t 0 st
  end.

(** ** [findNonCascading] (lines 120-145) *)
Section find_loop.
(** The recursive call [findNonCascading(relation.table)]. *)
Variable recur : nat → State → option (option Result * State).

(** [for (const relation of table.relations) { ... }] from position
    [i], again as a live iteration over the array in the store. *)
Fixpoint findInRelations (fuel : nat) (t : nat) (i : nat) (st : State)
    : option (option Result * State) :=
  match fuel with
  | 0 => None
  | S fuel =>
      T ← heap st !! t;
      match relations T !! i with
      | None => Some (None, st)
      | Some relation =>
          match owner relation with
          | Owner.parent => findInRelations fuel t (S i) st
          | Owner.self =>
              if negb (cascades relation) then
                P ← heap st !! parent relation;
                C ← heap st !! table relation;
                Some (Some {| found := relation;
                              relationChain := [name P; name C] |}, st)
              else
                '(result, st) ← recur (table relation) st;
                match result with
                | Some result =>
                    P ← heap st !! parent relation;
                    Some (Some {| found := found result;
                                  relationChain :=
                                    name P :: relationChain result |}, st)
                | None => findInRelations fuel t (S i) st
                end
          end
      end
  end.
End find_loop.

Fixpoint findNonCascading (fuel : nat) (t : nat) (st : State)
    : option (option Result * State) :=
  match fuel with
  | 0 => None
  | S fuel =>
      if decide (t ∈ checkedTables st) then Some (None, st)
      else findInRelations (findNonCascading fuel) fuel t 0 (addChecked t st)
  end.

(** ** The main program (lines 86-94) *)

(** The store when [collectRelations(table)] is called at line 92: the
    target's [Table] literal of line 86 is the only object, both
    collections are empty.  The target is reference [0]. *)
Definition initialState (targetTable : string) : State :=
  {| heap := [newTable targetTable]; allTables := ∅; checkedTables := ∅ |}.

(** A fuel that is always enough for both phases. *)
Definition enoughFuel (dbRelations : list RelationRecord.t) : nat :=
  3 * length dbRelations + 3.

(** [collectRelations(table)] at line 92. *)
Definition build (dbRelations : list RelationRecord.t) (targetTable : string)
    : option State :=
  collectRelations dbRelations (enoughFuel dbRelations) 0
    (initialState targetTable).

(** Lines 92 and 94: build, then search from the target. *)
Definition canIDelete (dbRelations : list RelationRecord.t)
    (targetTable : string) : option (option Result * State) :=
  st ← build dbRelations targetTable;
  findNonCascading (enoughFuel dbRelations) 0 st.

(** What lines 96-118 print: either the message that all relations
    cascade, or the names [found.parent.name] and [found.table.name] of
    the relation found together with the lines of [relationChain]. *)
Inductive Report :=
  | Safe
  | Unsafe (parentName childName : string) (chain : list string).

Definition report (result : option Result) (st : State) : option Report :=
  match result with
  | None => Some Safe
  | Some result =>
      P ← heap st !! parent (found result);
      C ← heap st !! table (found result);
      Some (Unsafe (name P) (name C) (relationChain result))
  end.

Definition analysis (dbRelations : list RelationRecord.t)
    (targetTable : string) : option Report :=
  '(result, st) ← canIDelete dbRelations targetTable;
  report result st.

(** ** What the program prints (lines 96-118) *)

(** [console.log] writes a line to the standard output, [console.error]
    to the standard error. *)
Inductive Stream := stdout | stderr.

(** A finished run: the lines written, in order, and the argument of
    [process.exit]. *)
Record Exit := {
  printed : list (Stream * string);
  code : nat;
}.

(** Lines 106-113: the loop over [relationChain], from the current value
    of [indent].  Each line is printed behind [indent]; an empty [indent]
    becomes the corner mark, and two spaces are put in front of it. *)
Fixpoint printChain (indent : string) (relationChain : list string)
    : list string :=
  match relationChain with
  | [] => []
  | line :: relationChain =>
      (indent +:+ line) ::
      printChain
        ("  " +:+ (if decide (String.length indent = 0) then "└ " else indent))
        relationChain
  end.

(** Lines 96-118: the messages and the exit code for the result of the
    search. *)
Definition printResult (result : option Result) (st : State) : option Exit :=
  match result with
  | Some result =>
      P ← heap st !! parent (found result);
      C ← heap st !! table (found result);
      Some {| printed :=
                (stdout, "Found a NON-CASCADING relation between tables: '"
                         +:+ name P +:+ "' <-> '" +:+ name C +:+ "'")
                :: (stdout, "This relation can cause 'FOREIGN KEY constraint failed' error when deleting.")
                :: (stdout, "Full relation chain:")
                :: ((λ line, (stdout, line))
                      <$> printChain "" (relationChain result));
              code := 1 |}
  | None =>
      Some {| printed :=
                [(stdout, "All relations cascade. Entries can be safely deleted.")];
              code := 0 |}
  end.

(** ** The command line (lines 7-27 and 43-56) *)

(** What the program asks of the outside world, for the calls that
    return: whether the database file exists
    ([Bun.file(dbFilePath).exists()]), the row of the COUNT query for a
    table name in that database ([null] when the query gives no row), and
    the rows of the foreign-key query. *)
Record Env := {
  fileExists : string → bool;
  tableCount : string → string → option nat;
  foreignKeys : string → list RelationRecord.t;
}.

(** [array.at(-k)] for [k] from 1: the [k]th element from the end,
    [undefined] when the array is shorter. *)
Definition atFromEnd {A : Type} (l : list A) (k : nat) : option A :=
  if decide (k ≤ length l) then l !! (length l - k) else None.

(** The whole script, from [Bun.argv] to [process.exit]. *)
Definition main (env : Env) (argv : list string) : option Exit :=
  if bool_decide ("--help"%string ∈ argv) || bool_decide ("-h"%string ∈ argv)
  then
    Some {| printed := [(stdout, "Usage: can-i-delete <db-file> <target-table>")];
            code := 0 |}
  else
    let args := drop 2 argv in
    let dbFilePath := atFromEnd args 2 in
    let targetTable := atFromEnd args 1 in
    if decide (length args < 2) then
      Some {| printed := [(stderr, "can-i-delete <db-file> <target-table>")];
              code := 1 |}
    else
      dbFilePath ← dbFilePath;
      targetTable ← targetTable;
      if negb (fileExists env dbFilePath) then
        Some {| printed :=
                  [(stderr, "Database file not found: " +:+ dbFilePath)];
                code := 1 |}
      else
        match tableCount env dbFilePath targetTable with
        | None | Some 0 =>
            Some {| printed := [(stderr, "Table not found: " +:+ targetTable)];
                    code := 1 |}
        | Some (S _) =>
            '(result, st) ← canIDelete (foreignKeys env dbFilePath) targetTable;
            printResult result st
        end.

(** * Specification vocabulary *)

(** ** Stores during and after the build *)

(** Objects not yet marked [collected]: one half of the termination
    measure of the build. *)
Definition uncollected (st : State) : nat :=
  sum_list_with (λ T, if collected T then 0 else 1) (heap st).

(** Well-formed stores: the target's object is there and is not in the
    registry, there is no dangling reference, every relation hangs from
    the table that is its [parent], and a table not yet collected has no
    relations. *)
Record wf (st : State) : Prop := {
  wf_root : 0 < length (heap st);
  wf_apart : ∀ n, allTables st !! n ≠ Some 0;
  wf_registered : ∀ n h, allTables st !! n = Some h →
    ∃ T, heap st !! h = Some T ∧ name T = n;
  wf_relation : ∀ h T r, heap st !! h = Some T → r ∈ relations T →
    parent r = h ∧ table r < length (heap st);
  wf_uncollected : ∀ h T, heap st !! h = Some T → collected T = false →
    relations T = [];
}.

(** A row concerns the table called [nm] when one of its two ends is
    [nm]. *)
Definition relevant (nm : string) (e : RelationRecord.t) : Prop :=
  RelationRecord.name e = nm ∨ RelationRecord.table e = nm.

Global Instance relevant_dec nm e : Decision (relevant nm e).
Proof. unfold relevant. apply _. Defined.

(** The relation that [collectRelations] appends to the table [t]
    called [nm] for the row [e]: the first branch (line 152) wins when
    [e.name] is [nm], the second (line 163) is taken otherwise. *)
Definition relationFor (reg : gmap string nat) (t : nat) (nm : string)
    (e : RelationRecord.t) (r : TableRelation) : Prop :=
  parent r = t ∧ cascades r = isCascade e ∧
  if decide (RelationRecord.name e = nm)
  then owner r = Owner.parent ∧ reg !! RelationRecord.table e = Some (table r)
  else owner r = Owner.self ∧ reg !! RelationRecord.name e = Some (table r).

(** The relations of [T] account for the rows [rows], one relation per
    relevant row, in order. *)
Definition accounts (st : State) (t : nat) (T : Table)
    (rows : list RelationRecord.t) (rs : list TableRelation) : Prop :=
  Forall2 (relationFor (allTables st) t (name T))
    (filter (relevant (name T)) rows) rs.

Section build_vocabulary.
Context (dbRelations : list RelationRecord.t).

(** Every table name a row mentions: the only names [tableFor] is ever
    called with. *)
Definition tableNames : list string :=
  dbRelations ≫= λ e, [RelationRecord.name e; RelationRecord.table e].

(** Names with no object yet: the other half of the measure. *)
Definition unregistered (st : State) : nat :=
  length (filter (λ n, allTables st !! n = None) tableNames).

(** A table is complete when it is collected and its relations account
    for all the rows. *)
Definition complete (st : State) (t : nat) : Prop :=
  ∃ T, heap st !! t = Some T ∧ collected T = true ∧
       accounts st t T dbRelations (relations T).

(** The monotone part of a transition. *)
Record extends (st st' : State) : Prop := {
  ext_reg : allTables st ⊆ allTables st';
  ext_checked : checkedTables st' = checkedTables st;
  ext_names : ∀ h T, heap st !! h = Some T →
    ∃ T', heap st' !! h = Some T' ∧ name T' = name T;
  ext_pending :
    uncollected st' + unregistered st' ≤ uncollected st + unregistered st;
  ext_size :
    length (heap st') + unregistered st' ≤ length (heap st) + unregistered st;
}.

(** [evolves a st st'] describes a run of the build between two moments
    at which no call other than the one on the active table [a] is in
    progress: collected tables other than [a] are not touched, the
    tables still uncollected were there before, and every table
    collected in between is complete. *)
Record evolves (a : option nat) (st st' : State) : Prop := {
  ev_extends : extends st st';
  ev_untouched : ∀ h T, a ≠ Some h →
    heap st !! h = Some T → collected T = true → heap st' !! h = Some T;
  ev_stale : ∀ h T', heap st' !! h = Some T' → collected T' = false →
    heap st !! h = Some T';
  ev_fresh : ∀ h T', a ≠ Some h →
    heap st' !! h = Some T' → collected T' = true →
    heap st !! h = Some T' ∨ complete st' h;
}.

(** The specification of one call of the build: on a well-formed store
    with fewer than [k] pending tables, [recur] returns, and the store it
    returns has evolved by whole calls and has the argument collected. *)
Definition callSpec (recur : nat → State → option State) (k : nat) : Prop :=
  ∀ t st, wf st → t < length (heap st) →
    uncollected st + unregistered st < k →
    ∃ st', recur t st = Some st' ∧ wf st' ∧ evolves None st st' ∧
           ∃ T', heap st' !! t = Some T' ∧ collected T' = true.

(** What is known of the store that [collectRelations(table)] leaves:
    it is well formed, every table in it is complete, the target is
    object [0], nothing is checked yet. *)
Record built (target : string) (st : State) : Prop := {
  built_wf : wf st;
  built_complete : ∀ h, h < length (heap st) → complete st h;
  built_root : ∃ T, heap st !! 0 = Some T ∧ name T = target;
  built_checked : checkedTables st = ∅;
  built_size : length (heap st) ≤ 1 + 2 * length dbRelations;
}.

End build_vocabulary.

(** ** Searches, schemas and graphs *)

(** The only field a search writes is [checkedTables], and it only adds
    to it. *)
Definition onlyChecks (st st' : State) : Prop :=
  heap st' = heap st ∧ allTables st' = allTables st ∧
  checkedTables st ⊆ checkedTables st'.

(** [witness hp t res]: [res] is a chain that starts at table [t], goes
    down relations tagged [Owner.self] that cascade, and ends with a
    relation tagged [Owner.self] that does not. *)
Inductive witness (hp : list Table) : nat → Result → Prop :=
  | witness_here t T r P C :
      hp !! t = Some T → r ∈ relations T →
      owner r = Owner.self → cascades r = false →
      hp !! parent r = Some P → hp !! table r = Some C →
      witness hp t {| found := r; relationChain := [name P; name C] |}
  | witness_below t T r P res :
      hp !! t = Some T → r ∈ relations T →
      owner r = Owner.self → cascades r = true →
      witness hp (table r) res →
      hp !! parent r = Some P →
      witness hp t {| found := found res;
                      relationChain := name P :: relationChain res |}.

(** The tables checked between [old] and [new] have only cascading
    [Owner.self] relations, all leading to checked tables. *)
Definition closed (hp : list Table) (old new : gset nat) : Prop :=
  ∀ h T r, h ∈ new → h ∉ old → hp !! h = Some T → r ∈ relations T →
    owner r = Owner.self → cascades r = true ∧ table r ∈ new.

(** The termination measure of the search. *)
Definition unchecked (st : State) : nat :=
  length (filter (λ h, h ∉ checkedTables st) (seq 0 (length (heap st)))).

(** Stores the search can run on: well formed, with at most [L]
    relations per table. *)
Definition searchable (L : nat) (st : State) : Prop :=
  wf st ∧ ∀ h T, heap st !! h = Some T → length (relations T) ≤ L.

(** The specification of one call of the search. *)
Definition findSpec (recur : nat → State → option (option Result * State))
    (L k : nat) : Prop :=
  ∀ t st, searchable L st → t < length (heap st) → unchecked st < k →
    ∃ res st', recur t st = Some (res, st') ∧ onlyChecks st st' ∧
      t ∈ checkedTables st' ∧
      match res with
      | None => closed (heap st) (checkedTables st) (checkedTables st')
      | Some res => witness (heap st) t res
      end.

(** Reachability in the schema: from a table to the tables whose foreign
    keys reference it, along any row. *)
Inductive reachable (dbRelations : list RelationRecord.t) (target : string)
    : string → Prop :=
  | reachable_target : reachable dbRelations target target
  | reachable_child e :
      reachable dbRelations target (RelationRecord.table e) →
      e ∈ dbRelations →
      reachable dbRelations target (RelationRecord.name e).

(** The same along rows that cascade only. *)
Inductive cascadeReachable (dbRelations : list RelationRecord.t)
    (target : string) : string → Prop :=
  | cascadeReachable_target : cascadeReachable dbRelations target target
  | cascadeReachable_child e :
      cascadeReachable dbRelations target (RelationRecord.table e) →
      e ∈ dbRelations → isCascade e = true →
      cascadeReachable dbRelations target (RelationRecord.name e).

(** Reachability in the store: down the relations tagged [Owner.self]
    that cascade, which are the ones the search follows. *)
Inductive descends (hp : list Table) (t : nat) : nat → Prop :=
  | descends_here : descends hp t t
  | descends_step h T r :
      descends hp t h → hp !! h = Some T → r ∈ relations T →
      owner r = Owner.self → cascades r = true →
      descends hp t (table r).

(** A table without its relations tagged [Owner.parent]. *)
Definition selfOnly (T : Table) : Table :=
  {| name := name T;
     relations := filter (λ r, owner r = Owner.self) (relations T);
     collected := collected T |}.

(** The store with every relation tagged [Owner.parent] removed from
    every table. *)
Definition withoutParentRelations (st : State) : State :=
  {| heap := selfOnly <$> heap st;
     allTables := allTables st;
     checkedTables := checkedTables st |}.

(** The position in [filter P l] that corresponds to position [i] of
    [l]. *)
Definition kept {A : Type} (P : A → Prop) `{!∀ x, Decision (P x)}
    (l : list A) (i : nat) : nat :=
  length (filter P (take i l)).

(** The schema of the orders example: orders references customers with
    CASCADE, order_items references orders with NO ACTION. *)
Definition orders_example : list RelationRecord.t :=
  [ RelationRecord.mk "orders" "customers" "CASCADE";
    RelationRecord.mk "order_items" "orders" "NO ACTION" ].

(** A schema whose only foreign key references its own table. *)
Definition self_reference (tableName action : string) : list RelationRecord.t :=
  [ RelationRecord.mk tableName tableName action ].

(** ** Vocabulary of the further properties *)

(** Tables joined to the target by foreign keys, followed in either
    direction. *)
Inductive connected (dbRelations : list RelationRecord.t) (target : string)
    : string → Prop :=
  | connected_target : connected dbRelations target target
  | connected_child e :
      connected dbRelations target (RelationRecord.table e) →
      e ∈ dbRelations →
      connected dbRelations target (RelationRecord.name e)
  | connected_parent e :
      connected dbRelations target (RelationRecord.name e) →
      e ∈ dbRelations →
      connected dbRelations target (RelationRecord.table e).

(** A chain of table names in which each table is referenced by the
    next one through a row of the schema; every row cascades except the
    last, which does not. *)
Inductive blockedPath (dbRelations : list RelationRecord.t)
    : list string → Prop :=
  | blockedPath_last e :
      e ∈ dbRelations → selected e → isCascade e = false →
      blockedPath dbRelations [RelationRecord.table e; RelationRecord.name e]
  | blockedPath_step e chain :
      e ∈ dbRelations → selected e → isCascade e = true →
      head chain = Some (RelationRecord.name e) →
      blockedPath dbRelations chain →
      blockedPath dbRelations (RelationRecord.table e :: chain).

(** A string of [n] spaces. *)
Fixpoint spaces (n : nat) : string :=
  match n with
  | 0 => ""
  | S n => " " +:+ spaces n
  end.

(** Every object other than the target's own is registered under its
    name. *)
Definition registersAll (st : State) : Prop :=
  ∀ h T, heap st !! h = Some T → h ≠ 0 → allTables st !! name T = Some h.

(** The store has the heap [hp] and every checked table descends from
    [root]. *)
Definition checksDescendants (hp : list Table) (root : nat) (st : State)
    : Prop :=
  heap st = hp ∧ ∀ h, h ∈ checkedTables st → descends hp root h.

(** An outside world for the examples: one database file, shop.db, with
    the three tables and the two foreign keys of the orders schema. *)
Definition shop_env : Env :=
  {| fileExists := λ file, bool_decide (file = "shop.db"%string);
     tableCount := λ _ tableName,
       if bool_decide
            (tableName ∈ ["customers"; "orders"; "order_items"]%string)
       then Some 1 else Some 0;
     foreignKeys := λ _, orders_example |}.

(** * Proofs *)

(** ** Counting lemmas used by the termination measures *)

Section counting.
Context {A : Type}.

Lemma filter_length_mono (P Q : A → Prop) `{!∀ x, Decision (P x)}
    `{!∀ x, Decision (Q x)} (l : list A) :
  (∀ x, x ∈ l → P x → Q x) →
  length (filter P l) ≤ length (filter Q l).
Proof.
  induction l as [|x l IH]; intros HPQ; [done|].
  rewrite !filter_cons.
  assert (length (filter P l) ≤ length (filter Q l)) as Hle.
  { apply IH. intros y Hy. apply HPQ. by right. }
  destruct (decide (P x)) as [HP|HP], (decide (Q x)) as [HQ|HQ]; simpl; try lia.
  destruct HQ. apply HPQ; [left|done].
Qed.

Lemma filter_length_strict (P Q : A → Prop) `{!∀ x, Decision (P x)}
    `{!∀ x, Decision (Q x)} (l : list A) (a : A) :
  (∀ x, x ∈ l → P x → Q x) → a ∈ l → Q a → ¬ P a →
  S (length (filter P l)) ≤ length (filter Q l).
Proof.
  induction l as [|x l IH]; intros HPQ Ha HQa HPa; [by apply elem_of_nil in Ha|].
  rewrite !filter_cons.
  assert (length (filter P l) ≤ length (filter Q l)) as Hle.
  { apply filter_length_mono. intros y Hy. apply HPQ. by right. }
  apply elem_of_cons in Ha as [<-|Ha].
  - destruct (decide (P a)), (decide (Q a)); simpl; try done; lia.
  - assert (S (length (filter P l)) ≤ length (filter Q l)) as Hlt.
    { apply IH; [|done..]. intros y Hy. apply HPQ. by right. }
    destruct (decide (P x)) as [HP|HP], (decide (Q x)) as [HQ|HQ]; simpl; try lia.
    destruct HQ. apply HPQ; [left|done].
Qed.

Lemma sum_list_with_insert (f : A → nat) (l : list A) (i : nat) (x y : A) :
  l !! i = Some x →
  sum_list_with f (<[i := y]> l) + f x = sum_list_with f l + f y.
Proof.
  revert i. induction l as [|z l IH]; intros [|i] Hi; simplify_eq/=; [lia|].
  specialize (IH _ Hi). lia.
Qed.
End counting.

(** ** The build: invariants of the store *)

Section build.
Context (dbRelations : list RelationRecord.t).

Lemma relationFor_mono reg reg' t nm e r :
  reg ⊆ reg' → relationFor reg t nm e r → relationFor reg' t nm e r.
Proof.
  intros Hsub (? & ? & H). split_and!; [done..|].
  destruct (decide _); destruct H as [? H]; split; try done;
    by eapply lookup_weaken.
Qed.

Lemma accounts_mono st st' t T rows rs :
  allTables st ⊆ allTables st' →
  accounts st t T rows rs → accounts st' t T rows rs.
Proof.
  intros Hsub Hacc. unfold accounts. eapply Forall2_impl; [exact Hacc|].
  intros e r. by apply relationFor_mono.
Qed.

Lemma complete_mono st st' t :
  allTables st ⊆ allTables st' → heap st' !! t = heap st !! t →
  complete dbRelations st t → complete dbRelations st' t.
Proof.
  intros Hsub Heq (T & HT & Hc & Hacc). exists T. split_and!; [congruence|done|].
  by eapply accounts_mono.
Qed.

(** *** What each primitive does to the store *)

Lemma extends_refl st : extends dbRelations st st.
Proof. split; eauto. Qed.

Lemma extends_trans st1 st2 st3 :
  extends dbRelations st1 st2 → extends dbRelations st2 st3 →
  extends dbRelations st1 st3.
Proof.
  intros [] []. split; [by etrans|congruence| |lia|lia].
  intros h T HT. edestruct ext_names0 as (T' & HT' & Hn); [done|].
  edestruct ext_names1 as (T'' & HT'' & Hn'); [done|].
  exists T''. split; [done|congruence].
Qed.

Lemma unregistered_mono st st' :
  allTables st ⊆ allTables st' →
  unregistered dbRelations st' ≤ unregistered dbRelations st.
Proof.
  intros Hsub. apply filter_length_mono. intros n _ Hn.
  destruct (allTables st !! n) as [h|] eqn:Hh; [|done].
  eapply lookup_weaken in Hh; [|done]. congruence.
Qed.

Lemma tableFor_hit n h st :
  allTables st !! n = Some h → tableFor n st = (h, st).
Proof. unfold tableFor. by intros ->. Qed.

Lemma tableFor_miss n st :
  allTables st !! n = None →
  tableFor n st =
    (length (heap st),
     {| heap := heap st ++ [newTable n];
        allTables := <[n := length (heap st)]> (allTables st);
        checkedTables := checkedTables st |}).
Proof. unfold tableFor. by intros ->. Qed.

Lemma tableFor_extends n st :
  n ∈ tableNames dbRelations → extends dbRelations st (tableFor n st).2.
Proof.
  intros Hn. destruct (allTables st !! n) as [h|] eqn:Hh.
  { rewrite (tableFor_hit _ _ _ Hh). apply extends_refl. }
  rewrite (tableFor_miss _ _ Hh). simpl.
  assert (S (unregistered dbRelations
               {| heap := heap st ++ [newTable n];
                  allTables := <[n := length (heap st)]> (allTables st);
                  checkedTables := checkedTables st |}) ≤ unregistered dbRelations st)
    as Hlt.
  { unfold unregistered. simpl.
    apply (filter_length_strict _ _ _ n); [|done|done|].
    - intros m _ Hm. destruct (decide (n = m)) as [->|Hne].
      + by rewrite lookup_insert_eq in Hm.
      + by rewrite lookup_insert_ne in Hm.
    - by rewrite lookup_insert_eq. }
  split; simpl.
  - by apply insert_subseteq.
  - done.
  - intros h T HT. exists T. split; [|done]. by apply lookup_app_l_Some.
  - unfold uncollected at 1. simpl. rewrite sum_list_with_app. simpl.
    unfold uncollected. lia.
  - rewrite length_app. simpl. lia.
Qed.

Lemma tableFor_registered n st :
  allTables (tableFor n st).2 !! n = Some (tableFor n st).1.
Proof.
  destruct (allTables st !! n) as [h|] eqn:Hh.
  - by rewrite (tableFor_hit _ _ _ Hh).
  - rewrite (tableFor_miss _ _ Hh). simpl. by rewrite lookup_insert_eq.
Qed.

Lemma tableFor_old n st h T :
  heap st !! h = Some T → heap (tableFor n st).2 !! h = Some T.
Proof.
  intros HT. destruct (allTables st !! n) as [h'|] eqn:Hh.
  - by rewrite (tableFor_hit _ _ _ Hh).
  - rewrite (tableFor_miss _ _ Hh). simpl. by apply lookup_app_l_Some.
Qed.

Lemma tableFor_new n st h T :
  heap (tableFor n st).2 !! h = Some T →
  heap st !! h = Some T ∨
  (h = (tableFor n st).1 ∧ T = newTable n ∧ heap st !! h = None).
Proof.
  destruct (allTables st !! n) as [h'|] eqn:Hh.
  - rewrite (tableFor_hit _ _ _ Hh). auto.
  - rewrite (tableFor_miss _ _ Hh). simpl. intros HT.
    apply lookup_app_Some in HT as [HT|[Hge HT]]; [by left|right].
    apply list_lookup_singleton_Some in HT as [Hz <-].
    assert (h = length (heap st)) as -> by lia.
    split_and!; [done..|]. by apply lookup_ge_None.
Qed.

Lemma tableFor_wf n st : wf st → wf (tableFor n st).2.
Proof.
  intros [Hroot Hapart Hreg Hrel Hunc].
  destruct (allTables st !! n) as [h'|] eqn:Hh.
  { by rewrite (tableFor_hit _ _ _ Hh). }
  rewrite (tableFor_miss _ _ Hh). split; simpl.
  - rewrite length_app. lia.
  - intros m. destruct (decide (n = m)) as [->|Hne].
    + rewrite lookup_insert_eq. intros [= Hz]. lia.
    + by rewrite lookup_insert_ne.
  - intros m h. destruct (decide (n = m)) as [->|Hne].
    + rewrite lookup_insert_eq. intros [= <-]. exists (newTable m).
      split; [|done]. rewrite lookup_app_r by done.
      by rewrite Nat.sub_diag.
    + rewrite lookup_insert_ne by done. intros Hm.
      destruct (Hreg _ _ Hm) as (T & HT & HTn). exists T.
      split; [|done]. by apply lookup_app_l_Some.
  - intros h T r HT Hr. rewrite length_app. simpl.
    apply lookup_app_Some in HT as [HT|[Hge HT]].
    + destruct (Hrel _ _ _ HT Hr). split; [done|lia].
    + apply list_lookup_singleton_Some in HT as [_ <-].
      by apply elem_of_nil in Hr.
  - intros h T HT Hc.
    apply lookup_app_Some in HT as [HT|[Hge HT]]; [by eapply Hunc|].
    by apply list_lookup_singleton_Some in HT as [_ <-].
Qed.
Lemma mutate_Some t f st T :
  heap st !! t = Some T →
  mutate t f st =
    Some {| heap := <[t := f T]> (heap st);
            allTables := allTables st;
            checkedTables := checkedTables st |}.
Proof. unfold mutate. by intros ->. Qed.

Lemma lookup_mutated (l : list Table) t h T' T :
  l !! t = Some T →
  <[t := T']> l !! h = (if decide (h = t) then Some T' else l !! h).
Proof.
  intros HT. destruct (decide (h = t)) as [->|Hne].
  - apply list_lookup_insert_eq. by eapply lookup_lt_Some.
  - by apply list_lookup_insert_ne.
Qed.

(** A mutation that keeps the name and does not clear [collected]. *)
Lemma mutated_extends t f st T :
  heap st !! t = Some T →
  name (f T) = name T →
  (collected T = true → collected (f T) = true) →
  extends dbRelations st {| heap := <[t := f T]> (heap st);
                allTables := allTables st;
                checkedTables := checkedTables st |}.
Proof.
  intros HT Hname Hcol.
  pose proof (sum_list_with_insert
    (λ T, if collected T then 0 else 1) (heap st) t T (f T) HT) as Hsum.
  assert ((if collected (f T) then 0 else 1)
          ≤ if collected T then 0 else 1) as Hw.
  { destruct (collected T); [by rewrite Hcol|]. destruct (collected (f T)); lia. }
  split; simpl.
  - done.
  - done.
  - intros h T0 HT0. rewrite (lookup_mutated _ _ _ _ _ HT).
    destruct (decide (h = t)) as [->|]; [|eauto].
    exists (f T). split; [done|]. congruence.
  - unfold uncollected, unregistered in *. simpl. lia.
  - rewrite length_insert. unfold unregistered. simpl. lia.
Qed.

Lemma markCollected_pending t st T :
  heap st !! t = Some T → collected T = false →
  S (uncollected {| heap := <[t := markCollected T]> (heap st);
                    allTables := allTables st;
                    checkedTables := checkedTables st |}
     + unregistered dbRelations st)
  = uncollected st + unregistered dbRelations st.
Proof.
  intros HT Hc.
  pose proof (sum_list_with_insert
    (λ T, if collected T then 0 else 1) (heap st) t T (markCollected T) HT)
    as Hsum.
  unfold uncollected. simpl in *. rewrite Hc in Hsum. lia.
Qed.

Lemma markCollected_wf t st T :
  wf st → heap st !! t = Some T →
  wf {| heap := <[t := markCollected T]> (heap st);
        allTables := allTables st;
        checkedTables := checkedTables st |}.
Proof.
  intros [Hroot Hapart Hreg Hrel Hunc] HT. split; simpl.
  - by rewrite length_insert.
  - done.
  - intros n h Hn. destruct (Hreg _ _ Hn) as (T0 & HT0 & Hname).
    rewrite (lookup_mutated _ _ _ _ _ HT).
    destruct (decide (h = t)) as [->|]; [|eauto].
    exists (markCollected T). split; [done|]. simpl. congruence.
  - intros h T0 r. rewrite (lookup_mutated _ _ _ _ _ HT), length_insert.
    destruct (decide (h = t)) as [->|]; [|by apply Hrel].
    intros [= <-]. simpl. by apply Hrel.
  - intros h T0. rewrite (lookup_mutated _ _ _ _ _ HT).
    destruct (decide (h = t)) as [->|]; [|by apply Hunc].
    by intros [= <-].
Qed.

Lemma pushRelation_wf t r st T :
  wf st → heap st !! t = Some T → collected T = true →
  parent r = t → table r < length (heap st) →
  wf {| heap := <[t := pushRelation r T]> (heap st);
        allTables := allTables st;
        checkedTables := checkedTables st |}.
Proof.
  intros [Hroot Hapart Hreg Hrel Hunc] HT Hc Hp Ht. split; simpl.
  - by rewrite length_insert.
  - done.
  - intros n h Hn. destruct (Hreg _ _ Hn) as (T0 & HT0 & Hname).
    rewrite (lookup_mutated _ _ _ _ _ HT).
    destruct (decide (h = t)) as [->|]; [|eauto].
    exists (pushRelation r T). split; [done|]. simpl. congruence.
  - intros h T0 r0. rewrite (lookup_mutated _ _ _ _ _ HT), length_insert.
    destruct (decide (h = t)) as [->|]; [|by apply Hrel].
    intros [= <-]. simpl. intros [Hr|Hr]%elem_of_app; [by eapply Hrel|].
    apply list_elem_of_singleton in Hr as ->. done.
  - intros h T0. rewrite (lookup_mutated _ _ _ _ _ HT).
    destruct (decide (h = t)) as [->|]; [|by apply Hunc].
    intros [= <-]. simpl. congruence.
Qed.

(** *** Transitions made of whole calls *)

Lemma evolves_refl a st : evolves dbRelations a st st.
Proof. split; eauto using extends_refl. Qed.

Lemma evolves_trans a st1 st2 st3 :
  evolves dbRelations a st1 st2 → evolves dbRelations a st2 st3 →
  evolves dbRelations a st1 st3.
Proof.
  intros [E1 U1 S1 F1] [E2 U2 S2 F2]. split.
  - by eapply extends_trans.
  - eauto.
  - eauto.
  - intros h T' Ha HT' Hc.
    destruct (F2 _ _ Ha HT' Hc) as [H2|H2]; [|by right].
    destruct (F1 _ _ Ha H2 Hc) as [H1|H1]; [by left|right].
    eapply complete_mono; [apply E2| |done]. congruence.
Qed.

Lemma evolves_weaken a st st' :
  evolves dbRelations None st st' → evolves dbRelations a st st'.
Proof. intros [E U S F]. split; eauto. Qed.

(** *** The two loops, given the specification of the calls they make *)

Section loops_spec.
Context (recur : nat → State → option State) (k : nat).
Hypothesis Hrecur : callSpec dbRelations recur k.

Lemma relate_spec t o other c st T :
  wf st → heap st !! t = Some T → collected T = true →
  other ∈ tableNames dbRelations →
  uncollected st + unregistered dbRelations st < k →
  ∃ st' r, relate recur t o other c st = Some st' ∧ wf st' ∧
    evolves dbRelations (Some t) st st' ∧
    heap st' !! t = Some (pushRelation r T) ∧
    parent r = t ∧ owner r = o ∧ cascades r = c ∧
    allTables st' !! other = Some (table r).
Proof.
  intros Hwf HT Hc Hother Hk. unfold relate.
  pose proof (tableFor_extends other st Hother) as He1.
  pose proof (tableFor_wf other st Hwf) as Hwf1.
  pose proof (tableFor_registered other st) as Hreg1.
  pose proof (tableFor_old other st t T HT) as HT1.
  pose proof (tableFor_new other st) as Hnew.
  pose proof (tableFor_old other st) as Hold.
  destruct (tableFor other st) as [h' st1]. simpl in *.
  set (r := {| parent := t; owner := o; table := h'; cascades := c |}).
  destruct (wf_registered _ Hwf1 _ _ Hreg1) as (T1 & HT1' & _).
  assert (h' < length (heap st1)) as Hh' by by eapply lookup_lt_Some.
  rewrite (mutate_Some _ _ _ _ HT1). simpl.
  set (st2 := {| heap := <[t := pushRelation r T]> (heap st1);
                 allTables := allTables st1;
                 checkedTables := checkedTables st1 |}).
  assert (wf st2) as Hwf2 by by apply pushRelation_wf.
  assert (extends dbRelations st1 st2) as He2 by by apply mutated_extends.
  assert (heap st2 !! t = Some (pushRelation r T)) as HT2.
  { simpl. by rewrite (lookup_mutated _ _ _ _ _ HT1), decide_True. }
  destruct (Hrecur h' st2) as (st3 & Hrun & Hwf3 & Hev & T3 & HT3 & Hc3).
  { done. }
  { simpl. by rewrite length_insert. }
  { pose proof (ext_pending _ _ _ He1). pose proof (ext_pending _ _ _ He2). lia. }
  exists st3, r. split_and!; try done.
  - split.
    + eapply extends_trans; [done|]. eapply extends_trans; [done|]. apply Hev.
    + intros h T0 Ha HT0 Hc0. eapply (ev_untouched _ _ _ _ Hev); [done| |done].
      simpl. rewrite (lookup_mutated _ _ _ _ _ HT1).
      rewrite decide_False by congruence. by apply Hold.
    + intros h T' HT' Hc'.
      pose proof (ev_stale _ _ _ _ Hev _ _ HT' Hc') as H2.
      assert (h ≠ t) as Hne by (intros ->; simplify_eq/=; congruence).
      simpl in H2. rewrite (lookup_mutated _ _ _ _ _ HT1) in H2.
      rewrite decide_False in H2 by done.
      destruct (Hnew _ _ H2) as [?|(-> & _)]; [done|]. congruence.
    + intros h T' Ha HT' Hc'.
      destruct (ev_fresh _ _ _ _ Hev _ _ ltac:(done) HT' Hc') as [H2|H2];
        [|by right].
      left. simpl in H2. rewrite (lookup_mutated _ _ _ _ _ HT1) in H2.
      rewrite decide_False in H2 by congruence.
      destruct (Hnew _ _ H2) as [?|(_ & -> & _)]; [done|]. done.
  - eapply (ev_untouched _ _ _ _ Hev); [done..|]. simpl. done.
  - eapply lookup_weaken; [|apply Hev]. done.
Qed.

Lemma row_names e :
  e ∈ dbRelations →
  RelationRecord.name e ∈ tableNames dbRelations ∧
  RelationRecord.table e ∈ tableNames dbRelations.
Proof.
  intros He. unfold tableNames.
  split; apply list_elem_of_bind; exists e; (split; [|done]);
    rewrite !elem_of_cons; auto.
Qed.

(** The first loop, from any row on: the relations of [t] grow by
    one relation per relevant row still to be visited. *)
Lemma collectRows_spec t rows : ∀ st T,
  rows ⊆ dbRelations →
  wf st → heap st !! t = Some T → collected T = true →
  uncollected st + unregistered dbRelations st < k →
  ∃ st' new, collectRows recur t rows st = Some st' ∧ wf st' ∧
    evolves dbRelations (Some t) st st' ∧
    heap st' !! t = Some {| name := name T;
                            relations := relations T ++ new;
                            collected := true |} ∧
    accounts st' t T rows new.
Proof.
  induction rows as [|e rows IH]; intros st T Hsub Hwf HT Hc Hk.
  { exists st, []. split_and!; [done|done|apply evolves_refl| |constructor].
    rewrite app_nil_r, HT. f_equal. destruct T; simpl in *. by subst. }
  assert (e ∈ dbRelations) as He by (apply Hsub; left).
  assert (rows ⊆ dbRelations) as Hsub' by (intros x Hx; apply Hsub; by right).
  destruct (row_names e He) as [Hn1 Hn2].
  simpl. rewrite HT. simpl.
  assert (∀ o other, other ∈ tableNames dbRelations →
    (if decide (RelationRecord.name e = name T)
     then o = Owner.parent ∧ other = RelationRecord.table e
     else o = Owner.self ∧ other = RelationRecord.name e) →
    relevant (name T) e →
    ∃ st' new,
      (relate recur t o other (isCascade e) st ≫= collectRows recur t rows)
        = Some st' ∧ wf st' ∧ evolves dbRelations (Some t) st st' ∧
      heap st' !! t = Some {| name := name T;
                              relations := relations T ++ new;
                              collected := true |} ∧
      accounts st' t T (e :: rows) new) as Hstep.
  { intros o other Hother Hside Hrel.
    destruct (relate_spec t o other (isCascade e) st T)
      as (st1 & r & Hrun1 & Hwf1 & Hev1 & HT1 & Hp & Ho & Hcs & Hreg);
      [done..|].
    destruct (IH st1 (pushRelation r T))
      as (st2 & new & Hrun2 & Hwf2 & Hev2 & HT2 & Hacc); [done..| |].
    { pose proof (ext_pending _ _ _ (ev_extends _ _ _ _ Hev1)). lia. }
    rewrite Hrun1. simpl. rewrite Hrun2.
    exists st2, (r :: new). simpl in *.
    split_and!; [done|done|by eapply evolves_trans| |].
    - rewrite HT2. by rewrite <- app_assoc.
    - unfold accounts in *. simpl in *. rewrite filter_cons.
      rewrite decide_True by done. constructor; [|done].
      eapply relationFor_mono; [apply Hev2|].
      split_and!; [done..|].
      destruct (decide _); destruct Hside as [-> ->]; done. }
  destruct (decide (RelationRecord.name e = name T)) as [Heq|Hne].
  { apply (Hstep Owner.parent (RelationRecord.table e)); [done|done|by left]. }
  destruct (decide (RelationRecord.table e = name T)) as [Heq'|Hne'].
  { apply (Hstep Owner.self (RelationRecord.name e)); [done|done|by right]. }
  destruct (IH st T) as (st2 & new & -> & Hwf2 & Hev2 & HT2 & Hacc); [done..|].
  exists st2, new. split_and!; [done..|].
  unfold accounts in *. rewrite filter_cons, decide_False; [done|].
  by intros [?|?].
Qed.

(** The second loop: every call it makes finds the store collected
    at [t], so [t.relations] does not change under the iterator. *)
Lemma collectRelated_spec t T : ∀ fuel i st,
  wf st → heap st !! t = Some T → collected T = true →
  uncollected st + unregistered dbRelations st < k →
  length (relations T) - i < fuel →
  ∃ st', collectRelated recur fuel t i st = Some st' ∧ wf st' ∧
    evolves dbRelations (Some t) st st' ∧ heap st' !! t = Some T.
Proof.
  induction fuel as [|fuel IH]; intros i st Hwf HT Hc Hk Hlen.
  { lia. }
  simpl. rewrite HT. simpl.
  destruct (relations T !! i) as [r|] eqn:Hr.
  2:{ exists st. split_and!; [done..|apply evolves_refl|done]. }
  assert (r ∈ relations T) as Hin by by eapply list_elem_of_lookup_2.
  destruct (wf_relation _ Hwf _ _ _ HT Hin) as [_ Hlt].
  destruct (Hrecur (table r) st) as (st1 & -> & Hwf1 & Hev1 & _); [done..|].
  simpl.
  assert (heap st1 !! t = Some T) as HT1
    by by eapply (ev_untouched _ _ _ _ Hev1).
  destruct (IH (S i) st1) as (st2 & -> & Hwf2 & Hev2 & HT2); [done..| | |].
  { pose proof (ext_pending _ _ _ (ev_extends _ _ _ _ Hev1)). lia. }
  { pose proof (lookup_lt_Some _ _ _ Hr). lia. }
  exists st2. split_and!; [done..| |done].
  eapply evolves_trans; [|done]. by apply evolves_weaken.
Qed.
End loops_spec.

Lemma accounts_length st t T rows rs :
  accounts st t T rows rs → length rs ≤ length rows.
Proof.
  intros Hacc. apply Forall2_length in Hacc. rewrite <- Hacc.
  apply length_filter.
Qed.

(** *** One call of [collectRelations]

    With [k] more units of fuel than rows, the call returns on every
    store with fewer than [k] pending tables. *)
Lemma collectRelations_unfold fuel t st :
  collectRelations dbRelations (S fuel) t st =
    (T ← heap st !! t;
     if collected T then Some st
     else
       st ← mutate t markCollected st;
       st ← collectRows (collectRelations dbRelations fuel) t dbRelations st;
       collectRelated (collectRelations dbRelations fuel) fuel t 0 st).
Proof. done. Qed.

Local Arguments collectRelations : simpl never.
Local Arguments collectRelated : simpl never.
Local Arguments collectRows : simpl never.

Lemma collectRelations_spec k :
  callSpec dbRelations (collectRelations dbRelations (S (k + length dbRelations))) k.
Proof.
  induction k as [|k IH]; intros t st Hwf Ht Hk; [lia|].
  destruct (lookup_lt_is_Some_2 _ _ Ht) as [T HT].
  rewrite collectRelations_unfold, HT. simpl.
  destruct (collected T) eqn:Hc.
  { exists st. split_and!; [done..|apply evolves_refl|eauto]. }
  rewrite (mutate_Some _ _ _ _ HT). simpl.
  set (st1 := {| heap := <[t := markCollected T]> (heap st);
                 allTables := allTables st;
                 checkedTables := checkedTables st |}).
  assert (wf st1) as Hwf1 by by apply markCollected_wf.
  assert (extends dbRelations st st1) as He1 by by apply mutated_extends.
  assert (heap st1 !! t = Some (markCollected T)) as HT1.
  { simpl. by rewrite (lookup_mutated _ _ _ _ _ HT), decide_True. }
  assert (uncollected st1 + unregistered dbRelations st1 < k) as Hk1.
  { pose proof (markCollected_pending t st T HT Hc) as Hp.
    unfold st1 at 2. unfold unregistered at 1. simpl.
    fold (unregistered dbRelations st). fold st1 in Hp. lia. }
  destruct (collectRows_spec _ _ IH t dbRelations st1 (markCollected T))
    as (st2 & new & Hrun2 & Hwf2 & Hev2 & HT2 & Hacc); [done..|].
  rewrite Hrun2. cbn [mbind option_bind]. simpl in HT2, Hacc.
  rewrite (wf_uncollected _ Hwf _ _ HT Hc) in HT2. simpl in HT2.
  set (T2 := {| name := name T; relations := new; collected := true |}) in *.
  destruct (collectRelated_spec _ _ IH t T2 (S (k + length dbRelations)) 0 st2)
    as (st3 & Hrun3 & Hwf3 & Hev3 & HT3); [done..| | |].
  { pose proof (ext_pending _ _ _ (ev_extends _ _ _ _ Hev2)). lia. }
  { simpl. apply accounts_length in Hacc. lia. }
  rewrite Hrun3.
  pose proof (evolves_trans _ _ _ _ Hev2 Hev3) as Hev.
  exists st3. split_and!; [done|done| |by exists T2].
  split.
  - eapply extends_trans; [done|]. apply Hev.
  - intros h T0 _ HT0 Hc0. eapply (ev_untouched _ _ _ _ Hev); [| |done].
    + intros [= <-]. congruence.
    + simpl. rewrite (lookup_mutated _ _ _ _ _ HT).
      rewrite decide_False; [done|]. intros ->. congruence.
  - intros h T' HT' Hc'.
    pose proof (ev_stale _ _ _ _ Hev _ _ HT' Hc') as H1.
    simpl in H1. rewrite (lookup_mutated _ _ _ _ _ HT) in H1.
    destruct (decide (h = t)) as [->|]; [|done]. by simplify_eq/=.
  - intros h T' _ HT' Hc'. destruct (decide (h = t)) as [->|Hne].
    + right. exists T2. split_and!; [done..|].
      eapply accounts_mono; [apply Hev3|]. done.
    + destruct (ev_fresh _ _ _ _ Hev h T') as [H1|H1]; [congruence|done..| |by right].
      left. simpl in H1. rewrite (lookup_mutated _ _ _ _ _ HT) in H1.
      by rewrite decide_False in H1.
Qed.

(** *** The store after the build *)

Lemma tableNames_length : length (tableNames dbRelations) = 2 * length dbRelations.
Proof.
  unfold tableNames. generalize dbRelations. intros l.
  induction l as [|e l IH]; [done|].
  change (S (S (length (l ≫= λ e, [RelationRecord.name e; RelationRecord.table e])))
          = 2 * S (length l)).
  rewrite IH. lia.
Qed.

Lemma unregistered_le st : unregistered dbRelations st ≤ 2 * length dbRelations.
Proof.
  unfold unregistered. rewrite <- tableNames_length. apply length_filter.
Qed.

Lemma initialState_wf target : wf (initialState target).
Proof.
  split; simpl.
  - lia.
  - intros n. by rewrite lookup_empty.
  - intros n h Hn. by rewrite lookup_empty in Hn.
  - intros h T r HT Hr. apply list_lookup_singleton_Some in HT as [_ <-].
    by apply elem_of_nil in Hr.
  - intros h T HT _. by apply list_lookup_singleton_Some in HT as [_ <-].
Qed.

Lemma build_built target :
  ∃ st, build dbRelations target = Some st ∧ built dbRelations target st.
Proof.
  unfold build.
  replace (enoughFuel dbRelations)
    with (S ((2 * length dbRelations + 2) + length dbRelations))
    by (unfold enoughFuel; lia).
  destruct (collectRelations_spec (2 * length dbRelations + 2) 0
              (initialState target))
    as (st & Hrun & Hwf & Hev & T0 & HT0 & Hc0).
  { apply initialState_wf. }
  { simpl. lia. }
  { pose proof (unregistered_le (initialState target)).
    unfold uncollected. simpl. lia. }
  exists st. split; [done|]. split.
  - done.
  - intros h [T HT]%lookup_lt_is_Some_2.
    assert (collected T = true) as Hc.
    { destruct (collected T) eqn:Hc; [done|].
      pose proof (ev_stale _ _ _ _ Hev _ _ HT Hc) as Hi. simpl in Hi.
      apply list_lookup_singleton_Some in Hi as [-> <-].
      rewrite HT0 in HT. by simplify_eq. }
    destruct (ev_fresh _ _ _ _ Hev h T) as [Hi|Hi]; [done..| |done].
    simpl in Hi. apply list_lookup_singleton_Some in Hi as [_ <-]. done.
  - destruct (ext_names _ _ _ (ev_extends _ _ _ _ Hev) 0 (newTable target))
      as (T & HT & Hn); [done|]. by exists T.
  - by rewrite (ext_checked _ _ _ (ev_extends _ _ _ _ Hev)).
  - pose proof (ext_size _ _ _ (ev_extends _ _ _ _ Hev)) as Hs.
    pose proof (unregistered_le (initialState target)). simpl in Hs. lia.
Qed.
End build.

(** ** The search: what it leaves in the store *)

Lemma findNonCascading_unfold fuel t st :
  findNonCascading (S fuel) t st =
    if decide (t ∈ checkedTables st) then Some (None, st)
    else findInRelations (findNonCascading fuel) fuel t 0 (addChecked t st).
Proof. done. Qed.

Lemma onlyChecks_refl st : onlyChecks st st.
Proof. by split_and!. Qed.

Lemma onlyChecks_trans st1 st2 st3 :
  onlyChecks st1 st2 → onlyChecks st2 st3 → onlyChecks st1 st3.
Proof.
  intros (? & ? & ?) (? & ? & ?). split_and!; [congruence..|set_solver].
Qed.

Lemma addChecked_onlyChecks t st : onlyChecks st (addChecked t st).
Proof. split_and!; [done..|]. simpl. set_solver. Qed.

Section find_frame.
Context (recur : nat → State → option (option Result * State)).
Hypothesis Hrecur : ∀ t st res st',
  recur t st = Some (res, st') → onlyChecks st st'.

Lemma findInRelations_onlyChecks fuel : ∀ t i st res st',
  findInRelations recur fuel t i st = Some (res, st') → onlyChecks st st'.
Proof.
  induction fuel as [|fuel IH]; intros t i st res st' Hrun; [done|].
  simpl in Hrun.
  destruct (heap st !! t) as [T|]; [|done]. simpl in Hrun.
  destruct (relations T !! i) as [r|].
  2:{ simplify_eq. apply onlyChecks_refl. }
  destruct (owner r); [by eapply IH|].
  destruct (cascades r); simpl in Hrun.
  - destruct (recur (table r) st) as [[res1 st1]|] eqn:Hcall; [|done].
    simpl in Hrun. apply Hrecur in Hcall.
    destruct res1 as [res1|].
    + destruct (heap st1 !! parent r); simplify_eq/=. done.
    + eapply onlyChecks_trans; [done|]. by eapply IH.
  - destruct (heap st !! parent r); [|done]. simpl in Hrun.
    destruct (heap st !! table r); simplify_eq/=. apply onlyChecks_refl.
Qed.
End find_frame.

Lemma findNonCascading_onlyChecks fuel : ∀ t st res st',
  findNonCascading fuel t st = Some (res, st') → onlyChecks st st'.
Proof.
  induction fuel as [|fuel IH]; intros t st res st' Hrun; [done|].
  rewrite findNonCascading_unfold in Hrun.
  destruct (decide _).
  { simplify_eq. apply onlyChecks_refl. }
  eapply onlyChecks_trans; [apply (addChecked_onlyChecks t)|].
  by eapply findInRelations_onlyChecks.
Qed.

Lemma findNonCascading_checks_root fuel t st res st' :
  findNonCascading fuel t st = Some (res, st') → t ∈ checkedTables st'.
Proof.
  destruct fuel as [|fuel]; [done|]. rewrite findNonCascading_unfold.
  destruct (decide _); intros Hrun.
  { by simplify_eq. }
  eapply findInRelations_onlyChecks in Hrun as (_ & _ & Hsub).
  - apply Hsub. simpl. set_solver.
  - apply findNonCascading_onlyChecks.
Qed.

(** ** The search: what it finds *)

Lemma closed_trans hp s1 s2 s3 :
  s1 ⊆ s2 → s2 ⊆ s3 → closed hp s1 s2 → closed hp s2 s3 → closed hp s1 s3.
Proof.
  intros H12 H23 C12 C23 h T r Hin Hout HT Hr Ho.
  destruct (decide (h ∈ s2)) as [Hh|Hh].
  - destruct (C12 h T r) as [? ?]; [done..|]. split; [done|]. by apply H23.
  - by apply (C23 h T r).
Qed.

Lemma unchecked_mono st st' :
  onlyChecks st st' → unchecked st' ≤ unchecked st.
Proof.
  intros (Hh & _ & Hsub). unfold unchecked. rewrite Hh.
  apply filter_length_mono. intros h _ Hn Hin. apply Hn. by apply Hsub.
Qed.

Lemma unchecked_add t st :
  t < length (heap st) → t ∉ checkedTables st →
  S (unchecked (addChecked t st)) ≤ unchecked st.
Proof.
  intros Ht Hn. unfold unchecked. simpl.
  apply (filter_length_strict _ _ _ t); [| |done|].
  - intros h _ Hh Hin. apply Hh. set_solver.
  - apply elem_of_seq. lia.
  - set_solver.
Qed.

Lemma unchecked_le st : unchecked st ≤ length (heap st).
Proof.
  unfold unchecked. etrans; [apply length_filter|]. by rewrite length_seq.
Qed.

Lemma searchable_onlyChecks L st st' :
  onlyChecks st st' → searchable L st → searchable L st'.
Proof.
  intros (Hh & Ha & _) [[Hroot Hapart Hreg Hrel Hunc] Hlen].
  split; [split|]; rewrite ?Hh, ?Ha; done.
Qed.

Section find_spec.
Context (recur : nat → State → option (option Result * State)) (L k : nat).
Hypothesis Hrecur : findSpec recur L k.

Lemma findInRelations_spec t T : ∀ fuel i st,
  searchable L st → heap st !! t = Some T →
  unchecked st < k → length (relations T) - i < fuel →
  ∃ res st', findInRelations recur fuel t i st = Some (res, st') ∧
    onlyChecks st st' ∧
    match res with
    | None =>
        closed (heap st) (checkedTables st) (checkedTables st') ∧
        ∀ j r, i ≤ j → relations T !! j = Some r → owner r = Owner.self →
          cascades r = true ∧ table r ∈ checkedTables st'
    | Some res => witness (heap st) t res
    end.
Proof.
  induction fuel as [|fuel IH]; intros i st Hs HT Hk Hlen; [lia|].
  simpl. rewrite HT. simpl.
  destruct (relations T !! i) as [r|] eqn:Hr.
  2:{ exists None, st. split_and!; [done|apply onlyChecks_refl| |].
      - intros h ??????. done.
      - intros j r Hj Hjr. apply lookup_ge_None in Hr.
        apply lookup_lt_Some in Hjr. lia. }
  assert (r ∈ relations T) as Hin by by eapply list_elem_of_lookup_2.
  pose proof (lookup_lt_Some _ _ _ Hr) as Hi.
  destruct (wf_relation _ (proj1 Hs) _ _ _ HT Hin) as [Hp Hlt].
  destruct (owner r) eqn:Ho.
  { destruct (IH (S i) st) as (res & st' & -> & Hoc & Hres); [done..|lia|].
    exists res, st'. split_and!; [done..|].
    destruct res; [done|]. destruct Hres as [Hcl Hall]. split; [done|].
    intros j r' Hj Hjr Ho'. destruct (decide (j = i)) as [->|].
    - simplify_eq. congruence.
    - apply (Hall j); [lia|done..]. }
  destruct (cascades r) eqn:Hc; simpl.
  2:{ rewrite Hp, HT. simpl.
      destruct (lookup_lt_is_Some_2 _ _ Hlt) as [C HC]. rewrite HC. simpl.
      eexists _, st. split_and!; [done|apply onlyChecks_refl|].
      eapply witness_here; [done..|by rewrite Hp|done]. }
  destruct (Hrecur (table r) st) as (res1 & st1 & -> & Hoc1 & Hin1 & Hres1);
    [done..|].
  simpl. pose proof Hoc1 as (Hh1 & _ & Hsub1).
  destruct res1 as [res1|].
  { rewrite Hh1, Hp, HT. simpl.
    eexists _, st1. split_and!; [done..|].
    eapply witness_below; [done..|by rewrite Hp]. }
  destruct (IH (S i) st1) as (res & st' & -> & Hoc & Hres).
  { by eapply searchable_onlyChecks. }
  { by rewrite Hh1. }
  { pose proof (unchecked_mono _ _ Hoc1). lia. }
  { lia. }
  pose proof Hoc as (_ & _ & Hsub).
  exists res, st'. split_and!; [done|by eapply onlyChecks_trans|].
  rewrite Hh1 in Hres.
  destruct res; [done|]. destruct Hres as [Hcl Hall]. split.
  - by eapply closed_trans.
  - intros j r' Hj Hjr Ho'. destruct (decide (j = i)) as [->|].
    + simplify_eq. split; [done|]. by apply Hsub.
    + apply (Hall j); [lia|done..].
Qed.
End find_spec.

Lemma findInRelations_unfold recur fuel t i st :
  findInRelations recur (S fuel) t i st =
    (T ← heap st !! t;
     match relations T !! i with
     | None => Some (None, st)
     | Some relation =>
         match owner relation with
         | Owner.parent => findInRelations recur fuel t (S i) st
         | Owner.self =>
             if negb (cascades relation) then
               P ← heap st !! parent relation;
               C ← heap st !! table relation;
               Some (Some {| found := relation;
                             relationChain := [name P; name C] |}, st)
             else
               '(result, st) ← recur (table relation) st;
               match result with
               | Some result =>
                   P ← heap st !! parent relation;
                   Some (Some {| found := found result;
                                 relationChain :=
                                   name P :: relationChain result |}, st)
               | None => findInRelations recur fuel t (S i) st
               end
         end
     end).
Proof. done. Qed.

Local Arguments findInRelations : simpl never.
Local Arguments findNonCascading : simpl never.

Lemma findNonCascading_spec L k :
  findSpec (findNonCascading (S (k + L))) L k.
Proof.
  induction k as [|k IH]; intros t st Hs Ht Hk; [lia|].
  change (S (S k + L)) with (S (S (k + L))).
  rewrite findNonCascading_unfold.
  destruct (decide (t ∈ checkedTables st)) as [Hin|Hnin].
  { exists None, st. split_and!; [done|apply onlyChecks_refl|done|].
    intros h ??????. done. }
  destruct (lookup_lt_is_Some_2 _ _ Ht) as [T HT].
  pose proof (addChecked_onlyChecks t st) as Hoc0.
  destruct (findInRelations_spec _ _ _ IH t T (S (k + L)) 0 (addChecked t st))
    as (res & st' & -> & Hoc & Hres).
  { by eapply searchable_onlyChecks. }
  { done. }
  { pose proof (unchecked_add t st Ht Hnin). lia. }
  { pose proof (proj2 Hs _ _ HT). lia. }
  pose proof Hoc as (_ & _ & Hsub). simpl in Hsub.
  exists res, st'. split_and!; [done|by eapply onlyChecks_trans|set_solver|].
  destruct res; [done|]. destruct Hres as [Hcl Hall]. simpl in *.
  intros h T' r Hh Hold HT' Hr Ho.
  destruct (decide (h = t)) as [->|Hne].
  - simplify_eq. apply list_elem_of_lookup_1 in Hr as [j Hj].
    eapply (Hall j); [lia|done..].
  - apply (Hcl h T' r); [done| |done..].
    rewrite elem_of_union, elem_of_singleton. tauto.
Qed.

(** ** The schema and the graph *)

Lemma cascadeReachable_reachable dbRelations target n :
  cascadeReachable dbRelations target n → reachable dbRelations target n.
Proof. induction 1; [constructor|by constructor]. Qed.

(** On the way to any reachable table, either every row cascades, or
    there is a first one that does not; that one joins two different
    tables. *)
Lemma reachable_first_blocking dbRelations target n :
  reachable dbRelations target n →
  cascadeReachable dbRelations target n ∨
  ∃ e, e ∈ dbRelations ∧ isCascade e = false ∧
       RelationRecord.name e ≠ RelationRecord.table e ∧
       cascadeReachable dbRelations target (RelationRecord.table e).
Proof.
  induction 1 as [|e Hreach [IH|IH] He]; [left; constructor| |by right].
  destruct (isCascade e) eqn:Hc; [left; by constructor|].
  destruct (decide (RelationRecord.name e = RelationRecord.table e)) as [->|Hne].
  - by left.
  - right. by exists e.
Qed.

Lemma closed_descends hp new t :
  closed hp ∅ new → t ∈ new →
  ∀ h, descends hp t h →
    h ∈ new ∧
    ∀ T r, hp !! h = Some T → r ∈ relations T → owner r = Owner.self →
      cascades r = true.
Proof.
  intros Hcl Ht h Hd.
  assert (h ∈ new) as Hh.
  { induction Hd as [|h T r Hd IH HT Hr Ho Hc]; [done|].
    by apply (Hcl h T r). }
  split; [done|]. intros T r HT Hr Ho. by apply (Hcl h T r).
Qed.

Lemma witness_descends (hp : list Table) (t : nat) (res : Result) :
  (∀ h T r, hp !! h = Some T → r ∈ relations T → parent r = h) →
  witness hp t res →
  ∃ h P C pre,
    descends hp t h ∧ hp !! h = Some P ∧ found res ∈ relations P ∧
    owner (found res) = Owner.self ∧ cascades (found res) = false ∧
    parent (found res) = h ∧ hp !! table (found res) = Some C ∧
    relationChain res = pre ++ [name P; name C] ∧
    ∀ T, hp !! t = Some T → head (relationChain res) = Some (name T).
Proof.
  assert (∀ t0 h h', descends hp t0 h → descends hp h h' → descends hp t0 h')
    as Htrans.
  { intros t0 h h' H1 H2. induction H2; [done|by econstructor]. }
  intros Hrel. induction 1 as [t T r P C HT Hr Ho Hc HP HC
                 |t T r P res HT Hr Ho Hc Hw IH HP].
  - pose proof (Hrel _ _ _ HT Hr) as Hp. rewrite Hp in HP.
    assert (P = T) as -> by congruence.
    exists t, T, C, []. split_and!; try done; [constructor|].
    intros T' ?. simpl. congruence.
  - destruct IH as (h & P' & C & pre & Hd & HP' & Hf & Hfo & Hfc & Hfp & HC
                    & Hchain & _).
    pose proof (Hrel _ _ _ HT Hr) as Hp. rewrite Hp in HP.
    assert (P = T) as -> by congruence.
    exists h, P', C, (name T :: pre). simpl.
    split_and!; try done.
    + eapply Htrans; [|done]. eapply descends_step; [constructor|done..].
    + by rewrite Hchain.
    + intros T' ?. congruence.
Qed.

Section graph_of_schema.
Context (dbRelations : list RelationRecord.t) (target : string).
Context (st : State) (Hbuilt : built dbRelations target st).

Lemma built_accounts h T :
  heap st !! h = Some T → accounts st h T dbRelations (relations T).
Proof.
  intros HT. destruct (built_complete _ _ _ Hbuilt h) as (T' & HT' & _ & Hacc).
  { by eapply lookup_lt_Some. }
  by simplify_eq.
Qed.

(** Every relation tagged [Owner.self] of a table comes from a row
    that references this table from another one. *)
Lemma relation_row h T r :
  heap st !! h = Some T → r ∈ relations T → owner r = Owner.self →
  ∃ e C, e ∈ dbRelations ∧
    RelationRecord.table e = name T ∧ RelationRecord.name e ≠ name T ∧
    heap st !! table r = Some C ∧ name C = RelationRecord.name e ∧
    isCascade e = cascades r.
Proof.
  intros HT Hr Ho. pose proof (built_accounts h T HT) as Hacc.
  apply list_elem_of_lookup_1 in Hr as [i Hi].
  destruct (Forall2_lookup_r _ _ _ _ _ Hacc Hi) as (e & He & _ & Hc & Hside).
  apply list_elem_of_lookup_2, list_elem_of_filter in He as [Hrel He].
  destruct (decide (RelationRecord.name e = name T)) as [|Hne].
  { destruct Hside. congruence. }
  destruct Hside as [_ Hreg].
  destruct (wf_registered _ (built_wf _ _ _ Hbuilt) _ _ Hreg) as (C & HC & Hn).
  exists e, C. split_and!; try done. by destruct Hrel.
Qed.

(** Every row that references a table from another one is among the
    relations tagged [Owner.self] of each object of that name. *)
Lemma row_relation h T e :
  heap st !! h = Some T → e ∈ dbRelations →
  RelationRecord.table e = name T → RelationRecord.name e ≠ name T →
  ∃ r C, r ∈ relations T ∧ owner r = Owner.self ∧
    cascades r = isCascade e ∧
    heap st !! table r = Some C ∧ name C = RelationRecord.name e.
Proof.
  intros HT He Ht Hne. pose proof (built_accounts h T HT) as Hacc.
  assert (e ∈ filter (relevant (name T)) dbRelations) as Hin.
  { apply list_elem_of_filter. split; [by right|done]. }
  apply list_elem_of_lookup_1 in Hin as [i Hi].
  destruct (Forall2_lookup_l _ _ _ _ _ Hacc Hi) as (r & Hr & _ & Hc & Hside).
  rewrite decide_False in Hside by done. destruct Hside as [Ho Hreg].
  destruct (wf_registered _ (built_wf _ _ _ Hbuilt) _ _ Hreg) as (C & HC & Hn).
  exists r, C. split_and!; try done. by eapply list_elem_of_lookup_2.
Qed.

Lemma descends_cascadeReachable h T :
  descends (heap st) 0 h → heap st !! h = Some T →
  cascadeReachable dbRelations target (name T).
Proof.
  intros Hd. revert T.
  induction Hd as [|h T r Hd IH HT Hr Ho Hc]; intros T' HT'.
  - destruct (built_root _ _ _ Hbuilt) as (T0 & HT0 & <-).
    simplify_eq. constructor.
  - destruct (relation_row h T r) as (e & C & He & Ht & Hne & HC & Hn & Hce);
      [done..|].
    simplify_eq. rewrite Hn. constructor; [|done|congruence].
    rewrite Ht. by apply IH.
Qed.

Lemma cascadeReachable_descends n :
  cascadeReachable dbRelations target n →
  ∃ h T, descends (heap st) 0 h ∧ heap st !! h = Some T ∧ name T = n.
Proof.
  induction 1 as [|e Hreach (h & T & Hd & HT & Hn) He Hc].
  { destruct (built_root _ _ _ Hbuilt) as (T0 & HT0 & <-).
    exists 0, T0. split_and!; [constructor|done..]. }
  destruct (decide (RelationRecord.name e = name T)) as [Heq|Hne].
  { exists h, T. by split_and!. }
  destruct (row_relation h T e) as (r & C & Hr & Ho & Hcr & HC & HnC);
    [done..|].
  exists (table r), C. split_and!; [|done..].
  eapply descends_step; [done..|congruence].
Qed.

(** The registry knows the target's name as soon as a selected row
    mentions it, and the object it knows is not the target's own. *)
Lemma target_registered e :
  e ∈ dbRelations → selected e → relevant target e →
  ∃ h T, allTables st !! target = Some h ∧ h ≠ 0 ∧
         heap st !! h = Some T ∧ name T = target.
Proof.
  intros He Hsel Hrel.
  assert (∃ h, allTables st !! target = Some h) as [h Hh].
  { destruct (built_root _ _ _ Hbuilt) as (T0 & HT0 & Hn0).
    pose proof (built_accounts 0 T0 HT0) as Hacc.
    unfold accounts in Hacc. rewrite Hn0 in Hacc.
    assert (e ∈ filter (relevant target) dbRelations) as Hin
      by by apply list_elem_of_filter.
    apply list_elem_of_lookup_1 in Hin as [i Hi].
    destruct (Forall2_lookup_l _ _ _ _ _ Hacc Hi) as (r & _ & _ & _ & Hside).
    assert (∃ R, heap st !! table r = Some R ∧ name R ≠ target ∧
                 relevant (name R) e) as (R & HR & HnR & HrelR).
    { destruct (decide _) as [Heq|Hne]; destruct Hside as [_ Hreg];
        destruct (wf_registered _ (built_wf _ _ _ Hbuilt) _ _ Hreg)
          as (R & HR & HnR); exists R; (split; [done|]); rewrite HnR.
      - split; [|by right]. unfold selected in Hsel. congruence.
      - split; [done|by left]. }
    pose proof (built_accounts _ R HR) as HaccR. unfold accounts in HaccR.
    assert (e ∈ filter (relevant (name R)) dbRelations) as HinR
      by by apply list_elem_of_filter.
    apply list_elem_of_lookup_1 in HinR as [j Hj].
    destruct (Forall2_lookup_l _ _ _ _ _ HaccR Hj) as (r' & _ & _ & _ & Hside').
    destruct (decide (RelationRecord.name e = name R)) as [Heq|Hne];
      destruct Hside' as [_ Hreg'].
    - destruct Hrel as [Hrel|Hrel]; [congruence|].
      exists (table r'). by rewrite <- Hrel.
    - destruct HrelR as [?|HrelR]; [done|].
      destruct Hrel as [Hrel|Hrel]; [|congruence].
      exists (table r'). by rewrite <- Hrel. }
  destruct (wf_registered _ (built_wf _ _ _ Hbuilt) _ _ Hh) as (T & HT & Hn).
  exists h, T. split_and!; [done| |done..].
  intros ->. by apply (wf_apart _ (built_wf _ _ _ Hbuilt) target).
Qed.
End graph_of_schema.

(** ** The whole analysis *)

Lemma built_searchable dbRelations target st :
  built dbRelations target st → searchable (length dbRelations) st.
Proof.
  intros Hb. split; [apply Hb|]. intros h T HT.
  eapply accounts_length, (built_accounts _ _ _ Hb). done.
Qed.

(** Both phases return, and the search either closes the set of checked
    tables or produces a witness from the target. *)
Lemma canIDelete_runs dbRelations target :
  ∃ st res st',
    build dbRelations target = Some st ∧ built dbRelations target st ∧
    findNonCascading (enoughFuel dbRelations) 0 st = Some (res, st') ∧
    canIDelete dbRelations target = Some (res, st') ∧
    onlyChecks st st' ∧
    match res with
    | None => 0 ∈ checkedTables st' ∧ closed (heap st) ∅ (checkedTables st')
    | Some res => witness (heap st) 0 res
    end.
Proof.
  destruct (build_built dbRelations target) as (st & Hrun & Hb).
  destruct (findNonCascading_spec (length dbRelations)
              (2 * length dbRelations + 2) 0 st)
    as (res & st' & Hfind & Hoc & Hin & Hres).
  { by eapply built_searchable. }
  { destruct (built_root _ _ _ Hb) as (T & HT & _). by eapply lookup_lt_Some. }
  { pose proof (unchecked_le st). pose proof (built_size _ _ _ Hb). lia. }
  replace (S (2 * length dbRelations + 2 + length dbRelations))
    with (enoughFuel dbRelations) in Hfind by (unfold enoughFuel; lia).
  exists st, res, st'. split_and!; try done.
  - unfold canIDelete. rewrite Hrun. done.
  - destruct res; [done|]. rewrite (built_checked _ _ _ Hb) in Hres. done.
Qed.

(** The outcome of the analysis in terms of the schema.  Either it
    reports that all relations cascade, and then every row that
    references, from another table, a table reachable along cascading
    rows cascades; or it reports a relation and a chain, the chain
    starts with the target and ends with the two tables of the
    relation, and the relation is a row that does not cascade, joins two
    different tables and references a table reachable along cascading
    rows. *)
Lemma analysis_outcome dbRelations target :
  (analysis dbRelations target = Some Safe ∧
   ∀ e, e ∈ dbRelations →
     cascadeReachable dbRelations target (RelationRecord.table e) →
     RelationRecord.name e ≠ RelationRecord.table e →
     isCascade e = true)
  ∨
  (∃ e pre,
     analysis dbRelations target =
       Some (Unsafe (RelationRecord.table e) (RelationRecord.name e)
               (pre ++ [RelationRecord.table e; RelationRecord.name e])) ∧
     head (pre ++ [RelationRecord.table e; RelationRecord.name e])
       = Some target ∧
     e ∈ dbRelations ∧ isCascade e = false ∧
     RelationRecord.name e ≠ RelationRecord.table e ∧
     cascadeReachable dbRelations target (RelationRecord.table e)).
Proof.
  destruct (canIDelete_runs dbRelations target)
    as (st & res & st' & _ & Hb & _ & Hrun & (Hh & _ & _) & Hres).
  unfold analysis. rewrite Hrun. simpl.
  destruct res as [res|].
  - right.
    destruct (witness_descends (heap st) 0 res)
      as (h & P & C & pre & Hd & HP & Hf & Ho & Hc & Hp & HC & Hchain & Hhead);
      [|done|].
    { intros h T r HT Hr. by apply (wf_relation _ (built_wf _ _ _ Hb) h T r). }
    destruct (relation_row _ _ _ Hb h P (found res))
      as (e & C' & He & Ht & Hne & HC' & Hn & Hce); [done..|].
    assert (C' = C) as -> by congruence.
    exists e, pre. rewrite Ht, <- Hn, <- Hchain. split_and!.
    + unfold report. rewrite Hh, Hp, HP. simpl. by rewrite HC.
    + destruct (built_root _ _ _ Hb) as (T0 & HT0 & <-). by apply Hhead.
    + done.
    + congruence.
    + congruence.
    + by eapply descends_cascadeReachable.
  - left. split; [done|]. destruct Hres as [H0 Hcl].
    intros e He Hreach Hne.
    destruct (cascadeReachable_descends _ _ _ Hb _ Hreach) as (h & T & Hd & HT & Hn).
    destruct (row_relation _ _ _ Hb h T e) as (r & C & Hr & Ho & Hc & _);
      [done..|congruence|].
    rewrite <- Hc.
    by eapply (closed_descends (heap st) _ 0 Hcl H0 h Hd).
Qed.

(** ** Fuel is immaterial: more fuel never changes a result *)

Section fuel_collect.
Context (recur recur' : nat → State → option State).
Hypothesis Hmore : ∀ t st st', recur t st = Some st' → recur' t st = Some st'.

Lemma relate_more t o other c st st' :
  relate recur t o other c st = Some st' →
  relate recur' t o other c st = Some st'.
Proof.
  unfold relate. destruct (tableFor other st) as [h st1].
  destruct (mutate t _ st1) as [st2|]; [|done]. simpl. apply Hmore.
Qed.

Lemma collectRows_more t rows : ∀ st st',
  collectRows recur t rows st = Some st' →
  collectRows recur' t rows st = Some st'.
Proof.
  induction rows as [|e rows IH]; intros st st'; [done|]. simpl.
  destruct (heap st !! t) as [T|]; [|done]. simpl.
  destruct (decide _).
  { destruct (relate recur _ _ _ _ _) as [st1|] eqn:H1; [|done].
    rewrite (relate_more _ _ _ _ _ _ H1). simpl. apply IH. }
  destruct (decide _); [|apply IH].
  destruct (relate recur _ _ _ _ _) as [st1|] eqn:H1; [|done].
  rewrite (relate_more _ _ _ _ _ _ H1). simpl. apply IH.
Qed.

Lemma collectRelated_more fuel : ∀ fuel' t i st st',
  fuel ≤ fuel' →
  collectRelated recur fuel t i st = Some st' →
  collectRelated recur' fuel' t i st = Some st'.
Proof.
  induction fuel as [|fuel IH]; intros [|fuel'] t i st st' Hle; try done; [lia|].
  simpl. destruct (heap st !! t) as [T|]; [|done]. simpl.
  destruct (relations T !! i) as [r|]; [|done].
  destruct (recur (table r) st) as [st1|] eqn:H1; [|done].
  rewrite (Hmore _ _ _ H1). simpl. apply IH. lia.
Qed.
End fuel_collect.

Lemma collectRelations_more dbRelations fuel : ∀ fuel' t st st',
  fuel ≤ fuel' →
  collectRelations dbRelations fuel t st = Some st' →
  collectRelations dbRelations fuel' t st = Some st'.
Proof.
  induction fuel as [|fuel IH]; intros [|fuel'] t st st' Hle; try done; [lia|].
  rewrite !collectRelations_unfold.
  assert (fuel ≤ fuel') as Hle' by lia.
  destruct (heap st !! t) as [T|]; [|done]. simpl.
  destruct (collected T); [done|].
  destruct (mutate t markCollected st) as [st1|]; [|done]. simpl.
  destruct (collectRows (collectRelations dbRelations fuel) t dbRelations st1)
    as [st2|] eqn:H2; [|done].
  erewrite collectRows_more; [|intros ???; by apply IH|done]. simpl.
  apply collectRelated_more; [intros ???; by apply IH|done].
Qed.

Section fuel_find.
Context (recur recur' : nat → State → option (option Result * State)).
Hypothesis Hmore : ∀ t st x, recur t st = Some x → recur' t st = Some x.

Lemma findInRelations_more fuel : ∀ fuel' t i st x,
  fuel ≤ fuel' →
  findInRelations recur fuel t i st = Some x →
  findInRelations recur' fuel' t i st = Some x.
Proof.
  induction fuel as [|fuel IH]; intros [|fuel'] t i st x Hle; try done; [lia|].
  assert (fuel ≤ fuel') as Hle' by lia.
  rewrite !findInRelations_unfold.
  destruct (heap st !! t) as [T|]; [|done]. simpl.
  destruct (relations T !! i) as [r|]; [|done].
  destruct (owner r); [by apply IH|].
  destruct (cascades r); [|done]. simpl.
  destruct (recur (table r) st) as [[res1 st1]|] eqn:H1; [|done].
  rewrite (Hmore _ _ _ H1). simpl.
  destruct res1; [done|]. by apply IH.
Qed.
End fuel_find.

Lemma findNonCascading_more fuel : ∀ fuel' t st x,
  fuel ≤ fuel' →
  findNonCascading fuel t st = Some x →
  findNonCascading fuel' t st = Some x.
Proof.
  induction fuel as [|fuel IH]; intros [|fuel'] t st x Hle; try done; [lia|].
  rewrite !findNonCascading_unfold.
  destruct (decide _); [done|].
  apply findInRelations_more; [intros ???; apply IH|]; lia.
Qed.

(** ** Relations tagged [Owner.parent] do not matter to the search *)

Section filter_positions.
Context {A : Type} (P : A → Prop) `{!∀ x, Decision (P x)}.

Lemma kept_S l i x :
  l !! i = Some x →
  kept P l (S i) = if decide (P x) then S (kept P l i) else kept P l i.
Proof.
  intros Hi. unfold kept.
  rewrite (take_S_r _ _ _ Hi), filter_app, filter_cons, filter_nil.
  destruct (decide (P x)); [|by rewrite app_nil_r].
  rewrite length_app. simpl. lia.
Qed.

Lemma filter_lookup_kept l i x :
  l !! i = Some x → P x → filter P l !! kept P l i = Some x.
Proof.
  intros Hi HP. unfold kept.
  assert (filter P l = filter P (take i l) ++ x :: filter P (drop (S i) l))
    as ->.
  { rewrite <- (take_drop_middle _ _ _ Hi) at 1.
    by rewrite filter_app, filter_cons, decide_True. }
  rewrite lookup_app_r by done. by rewrite Nat.sub_diag.
Qed.

Lemma filter_lookup_end l i :
  l !! i = None → filter P l !! kept P l i = None.
Proof.
  intros Hi. unfold kept. apply lookup_ge_None in Hi.
  rewrite take_ge by done. by apply lookup_ge_None.
Qed.
End filter_positions.

Section erase_loop.
Context (recur recur' : nat → State → option (option Result * State)).
Hypothesis Hrecur : ∀ t st res st',
  recur t st = Some (res, st') →
  heap st' = heap st ∧
  recur' t (withoutParentRelations st)
    = Some (res, withoutParentRelations st').

Lemma findInRelations_erase fuel : ∀ t T i st res st',
  heap st !! t = Some T →
  findInRelations recur fuel t i st = Some (res, st') →
  findInRelations recur' fuel t
    (kept (λ r, owner r = Owner.self) (relations T) i)
    (withoutParentRelations st)
  = Some (res, withoutParentRelations st').
Proof.
  induction fuel as [|fuel IH]; intros t T i st res st' HT; [done|].
  rewrite findInRelations_unfold, HT. simpl.
  destruct (relations T !! i) as [r|] eqn:Hr.
  2:{ intros [= <- <-]. rewrite findInRelations_unfold. simpl.
      rewrite list_lookup_fmap, HT. simpl.
      by rewrite filter_lookup_end. }
  pose proof (kept_S (λ r, owner r = Owner.self) _ _ _ Hr) as HS.
  destruct (owner r) eqn:Ho.
  { rewrite decide_False in HS by congruence. intros Hrun.
    pose proof (IH _ _ _ _ _ _ HT Hrun) as Hrun'. rewrite HS in Hrun'.
    by eapply findInRelations_more; [| |exact Hrun']; [done|lia]. }
  rewrite decide_True in HS by done.
  intros Hrun. rewrite findInRelations_unfold. simpl.
  rewrite list_lookup_fmap, HT. simpl.
  rewrite (filter_lookup_kept _ _ _ _ Hr Ho), Ho.
  destruct (cascades r); simpl in *.
  2:{ rewrite !list_lookup_fmap.
      destruct (heap st !! parent r) as [P|]; [|done]. simpl in *.
      destruct (heap st !! table r) as [C|]; [|done]. simpl in *.
      by simplify_eq. }
  destruct (recur (table r) st) as [[res1 st1]|] eqn:H1; [|done].
  destruct (Hrecur _ _ _ _ H1) as [Hh1 ->]. simpl in *.
  destruct res1 as [res1|].
  { rewrite list_lookup_fmap.
    destruct (heap st1 !! parent r) as [P|]; [|done]. simpl in *.
    by simplify_eq. }
  rewrite <- Hh1 in HT.
  pose proof (IH _ _ _ _ _ _ HT Hrun) as Hrun'. by rewrite HS in Hrun'.
Qed.
End erase_loop.

Lemma findNonCascading_erase fuel : ∀ t st res st',
  findNonCascading fuel t st = Some (res, st') →
  findNonCascading fuel t (withoutParentRelations st)
    = Some (res, withoutParentRelations st').
Proof.
  induction fuel as [|fuel IH]; intros t st res st'; [done|].
  rewrite !findNonCascading_unfold. simpl.
  destruct (decide _); [by intros [= <- <-]|].
  intros Hrun.
  destruct (heap st !! t) as [T|] eqn:HT.
  2:{ destruct fuel; [done|].
      by rewrite findInRelations_unfold in Hrun; simpl in Hrun;
        rewrite HT in Hrun. }
  apply (findInRelations_erase (findNonCascading fuel) (findNonCascading fuel))
    with (T := T) in Hrun; [done| |done].
  intros t' st0 res0 st0' H0. split; [|by apply IH].
  by apply findNonCascading_onlyChecks in H0 as (? & _).
Qed.

(** The result of a search in a searchable store, whatever the fuel it
    was run with. *)
Lemma findNonCascading_result L fuel t st res st' :
  searchable L st → t < length (heap st) →
  findNonCascading fuel t st = Some (res, st') →
  match res with
  | None => closed (heap st) (checkedTables st) (checkedTables st')
  | Some res => witness (heap st) t res
  end.
Proof.
  intros Hs Ht Hrun.
  destruct (findNonCascading_spec L (S (unchecked st)) t st)
    as (res2 & st2 & Hrun2 & _ & _ & Hres); [done|done|lia|].
  eapply findNonCascading_more in Hrun;
    [|apply (Nat.le_max_l _ (S (S (unchecked st) + L)))].
  eapply findNonCascading_more in Hrun2;
    [|apply (Nat.le_max_r fuel (S (S (unchecked st) + L)))].
  rewrite Hrun in Hrun2. by simplify_eq.
Qed.

Lemma witness_found hp t res :
  witness hp t res →
  owner (found res) = Owner.self ∧ cascades (found res) = false.
Proof. induction 1; done. Qed.

(** * The claims *)

(** ** Finding a blocking relation *)

(** C1, as amended.  For every schema with a row that does not cascade,
    is one the query selects (it joins two different tables), and
    references a table reachable from the target, the analysis reports a
    relation and a chain: the chain starts with the target's name, its
    last two elements are the names of the parent and the child table of
    the relation reported, and that relation is a row of the schema that
    does not cascade and references a table reachable from the target. *)
Theorem blocking_row_found dbRelations target e :
  e ∈ dbRelations →
  isCascade e = false →
  selected e →
  reachable dbRelations target (RelationRecord.table e) →
  ∃ b pre,
    analysis dbRelations target =
      Some (Unsafe (RelationRecord.table b) (RelationRecord.name b)
              (pre ++ [RelationRecord.table b; RelationRecord.name b])) ∧
    head (pre ++ [RelationRecord.table b; RelationRecord.name b])
      = Some target ∧
    b ∈ dbRelations ∧ isCascade b = false ∧
    reachable dbRelations target (RelationRecord.table b).
Proof.
  intros He Hc Hne Hreach.
  assert (∃ e', e' ∈ dbRelations ∧ isCascade e' = false ∧
                RelationRecord.name e' ≠ RelationRecord.table e' ∧
                cascadeReachable dbRelations target (RelationRecord.table e'))
    as (e' & He' & Hc' & Hne' & Hreach').
  { destruct (reachable_first_blocking _ _ _ Hreach) as [Hcr|Hblock];
      [by exists e|done]. }
  destruct (analysis_outcome dbRelations target)
    as [[_ Hall]|(b & pre & Hrun & Hhead & Hb & Hcb & _ & Hrb)].
  - specialize (Hall e' He' Hreach' Hne'). congruence.
  - exists b, pre. split_and!; [done..|].
    by apply cascadeReachable_reachable.
Qed.

(** In the orders schema the row from order_items to orders blocks the
    deletion of a customer. *)
Lemma blocking_row_found_witness :
  ∃ b pre,
    analysis orders_example "customers" =
      Some (Unsafe (RelationRecord.table b) (RelationRecord.name b)
              (pre ++ [RelationRecord.table b; RelationRecord.name b])) ∧
    head (pre ++ [RelationRecord.table b; RelationRecord.name b])
      = Some "customers"%string ∧
    b ∈ orders_example ∧ isCascade b = false ∧
    reachable orders_example "customers" (RelationRecord.table b).
Proof.
  apply (blocking_row_found orders_example "customers"
           (RelationRecord.mk "order_items" "orders" "NO ACTION")).
  - unfold orders_example. set_solver.
  - reflexivity.
  - unfold selected. simpl. discriminate.
  - apply (reachable_child _ _ (RelationRecord.mk "orders" "customers" "CASCADE")).
    + apply reachable_target.
    + unfold orders_example. set_solver.
Defined.

(** C1 as stated fails on a foreign key that references its own table:
    the row does not cascade and its parent is the target itself, yet
    nothing is reported. *)
Lemma self_reference_row_not_found :
  let rows := self_reference "node" "NO ACTION" in
  let e := RelationRecord.mk "node" "node" "NO ACTION" in
  e ∈ rows ∧ isCascade e = false ∧
  reachable rows "node" (RelationRecord.table e) ∧
  analysis rows "node" = Some Safe ∧
  ∀ p c chain, analysis rows "node" ≠ Some (Unsafe p c chain).
Proof.
  assert (analysis (self_reference "node" "NO ACTION") "node" = Some Safe) as Hrun
    by (vm_compute; reflexivity).
  simpl. split_and!.
  - unfold self_reference. set_solver.
  - reflexivity.
  - apply reachable_target.
  - exact Hrun.
  - intros p c chain. rewrite Hrun. discriminate.
Qed.

(** ** Schemas in which everything cascades *)

Lemma all_cascading_safe dbRelations target :
  (∀ e, e ∈ dbRelations → selected e →
        reachable dbRelations target (RelationRecord.table e) →
        isCascade e = true) →
  analysis dbRelations target = Some Safe.
Proof.
  intros Hall.
  destruct (analysis_outcome dbRelations target)
    as [[Hrun _]|(b & pre & _ & _ & Hb & Hcb & Hne & Hreach)]; [done|].
  apply cascadeReachable_reachable in Hreach.
  specialize (Hall b Hb Hne Hreach). congruence.
Qed.

Lemma reachable_unreferenced dbRelations target n :
  (∀ e, e ∈ dbRelations → RelationRecord.table e ≠ target) →
  reachable dbRelations target n → n = target.
Proof.
  intros Hfree. induction 1 as [|e Hreach IH He]; [done|].
  by destruct (Hfree e He).
Qed.

(** C2.  When every row by which another table references a table
    reachable from the target cascades, the analysis reports that all
    relations cascade.  In particular it does so on two tables that
    reference each other with CASCADE, and on a target that no row
    mentions (the report [Safe] carries no chain). *)
Theorem cascading_schema_safe :
  (∀ dbRelations target,
     (∀ e, e ∈ dbRelations → selected e →
           reachable dbRelations target (RelationRecord.table e) →
           isCascade e = true) →
     analysis dbRelations target = Some Safe)
  ∧ (∀ a b,
       analysis [RelationRecord.mk a b "CASCADE";
                 RelationRecord.mk b a "CASCADE"] a = Some Safe)
  ∧ (∀ dbRelations target,
       target ∉ tableNames dbRelations →
       analysis dbRelations target = Some Safe).
Proof.
  split_and!.
  - apply all_cascading_safe.
  - intros a b. apply all_cascading_safe. intros e He _ _.
    apply elem_of_cons in He as [->|He]; [done|].
    apply list_elem_of_singleton in He as ->. done.
  - intros dbRelations target Hfresh. apply all_cascading_safe.
    intros e He _ Hreach. exfalso. apply Hfresh.
    apply reachable_unreferenced in Hreach as <-.
    + by apply row_names.
    + intros e' He' Heq. apply Hfresh. rewrite <- Heq. by apply row_names.
Qed.

(** Two tables that reference each other with CASCADE. *)
Lemma cascading_schema_safe_witness :
  analysis [RelationRecord.mk "a" "b" "CASCADE";
            RelationRecord.mk "b" "a" "CASCADE"] "a" = Some Safe.
Proof.
  apply (proj1 cascading_schema_safe).
  intros e He _ _.
  apply elem_of_cons in He as [->|He]; [reflexivity|].
  apply list_elem_of_singleton in He as ->. reflexivity.
Defined.

(** ** A foreign key that references its own table *)

(** C3, as amended.  On a schema whose only row is a foreign key of the
    target to itself, the analysis reports that all relations cascade,
    whatever the row's [on_delete]: with CASCADE, and with NO ACTION as
    well.  The build takes the branch of line 152 for such a row, tags
    the relation [Owner.parent], and the search skips it. *)
Theorem self_reference_safe tableName action :
  analysis (self_reference tableName action) tableName = Some Safe.
Proof.
  destruct (analysis_outcome (self_reference tableName action) tableName)
    as [[Hrun _]|(b & pre & _ & _ & Hb & _ & Hne & _)]; [done|].
  apply list_elem_of_singleton in Hb as ->. done.
Qed.

(** C3 as stated fails: with NO ACTION on the self-reference the report
    is [Safe], not the chain of the table twice. *)
Lemma self_reference_no_action_safe :
  analysis (self_reference "node" "NO ACTION") "node" = Some Safe ∧
  analysis (self_reference "node" "NO ACTION") "node"
    ≠ Some (Unsafe "node" "node" ["node"; "node"]%string).
Proof.
  assert (analysis (self_reference "node" "NO ACTION") "node" = Some Safe)
    as Hrun by (vm_compute; reflexivity).
  split; [done|]. rewrite Hrun. discriminate.
Qed.

(** The store built for that schema: the row gives the target one
    relation, tagged [Owner.parent], to a second object of the same
    name. *)
Example self_reference_store :
  heap <$> build (self_reference "node" "NO ACTION") "node" =
  Some [ {| name := "node";
            relations := [ {| parent := 0; owner := Owner.parent;
                              table := 1; cascades := false |} ];
            collected := true |};
         {| name := "node";
            relations := [ {| parent := 1; owner := Owner.parent;
                              table := 1; cascades := false |} ];
            collected := true |} ].
Proof. vm_compute. reflexivity. Qed.

(** ** Which relations the search examines *)

Section found_tag.
Context (recur : nat → State → option (option Result * State)).
Hypothesis Hrecur : ∀ t st res st',
  recur t st = Some (Some res, st') →
  owner (found res) = Owner.self ∧ cascades (found res) = false.

Lemma findInRelations_found fuel : ∀ t i st res st',
  findInRelations recur fuel t i st = Some (Some res, st') →
  owner (found res) = Owner.self ∧ cascades (found res) = false.
Proof.
  induction fuel as [|fuel IH]; intros t i st res st'; [done|].
  rewrite findInRelations_unfold.
  destruct (heap st !! t) as [T|]; [|done]. simpl.
  destruct (relations T !! i) as [r|]; [|done].
  destruct (owner r) eqn:Ho; [apply IH|].
  destruct (cascades r) eqn:Hc; simpl.
  - destruct (recur (table r) st) as [[[res1|] st1]|] eqn:H1; [| |done]; simpl.
    + destruct (heap st1 !! parent r); [|done]. simpl. intros [= <- <-].
      simpl. by eapply Hrecur.
    + apply IH.
  - destruct (heap st !! parent r); [|done]. simpl.
    destruct (heap st !! table r); [|done]. simpl. by intros [= <- <-].
Qed.
End found_tag.

Lemma findNonCascading_found fuel : ∀ t st res st',
  findNonCascading fuel t st = Some (Some res, st') →
  owner (found res) = Owner.self ∧ cascades (found res) = false.
Proof.
  induction fuel as [|fuel IH]; intros t st res st'; [done|].
  rewrite findNonCascading_unfold. destruct (decide _); [done|].
  by apply findInRelations_found.
Qed.

(** C4, as amended.  The tags are the other way round: at every visited
    table the search examines the relations whose [owner] is [self] and
    skips those whose [owner] is [parent].  Skipped entirely: removing
    every relation tagged [parent] from the store changes neither the
    result nor the tables checked.  Examined: a relation found is tagged
    [self] and does not cascade, and when nothing is found every relation
    tagged [self] of every table the search checked cascades and leads to
    a checked table. *)
Theorem search_examines_self_relations :
  (∀ fuel t st res st',
     findNonCascading fuel t st = Some (res, st') →
     findNonCascading fuel t (withoutParentRelations st)
       = Some (res, withoutParentRelations st'))
  ∧ (∀ fuel t st res st',
       findNonCascading fuel t st = Some (Some res, st') →
       owner (found res) = Owner.self ∧ cascades (found res) = false)
  ∧ (∀ L fuel t st st',
       searchable L st → t < length (heap st) →
       findNonCascading fuel t st = Some (None, st') →
       ∀ h T r,
         h ∈ checkedTables st' → h ∉ checkedTables st →
         heap st !! h = Some T → r ∈ relations T → owner r = Owner.self →
         cascades r = true ∧ table r ∈ checkedTables st').
Proof.
  split_and!.
  - apply findNonCascading_erase.
  - apply findNonCascading_found.
  - intros L fuel t st st' Hs Ht Hrun.
    apply (findNonCascading_result L fuel t st None st' Hs Ht Hrun).
Qed.

(** In the store built for the orders schema, the relation found from
    the target is tagged [self], and the search gives the same result
    without the relations tagged [parent]. *)
Lemma search_examines_self_relations_witness :
  ∃ st res st',
    build orders_example "customers" = Some st ∧
    findNonCascading (enoughFuel orders_example) 0 st = Some (Some res, st') ∧
    findNonCascading (enoughFuel orders_example) 0 (withoutParentRelations st)
      = Some (Some res, withoutParentRelations st') ∧
    owner (found res) = Owner.self ∧ cascades (found res) = false.
Proof.
  eexists _, _, _. split; [vm_compute; reflexivity|].
  match goal with
  | |- ?run = Some (Some ?res, ?st') ∧ _ =>
      assert (run = Some (Some res, st')) as Hrun by (vm_compute; reflexivity)
  end.
  split; [exact Hrun|]. split.
  - exact (proj1 search_examines_self_relations _ _ _ _ _ Hrun).
  - exact (proj1 (proj2 search_examines_self_relations) _ _ _ _ _ Hrun).
Defined.

(** C4 as stated fails both ways.  From the table that declares a
    foreign key, the only relation is tagged [parent] and does not
    cascade, yet the search finds nothing; from the table it references,
    the only relation is tagged [self], and it is the one found. *)
Lemma search_skips_parent_relations :
  let rows := [RelationRecord.mk "child" "parent" "NO ACTION"] in
  (∃ st T r st',
     build rows "child" = Some st ∧ heap st !! 0 = Some T ∧
     relations T = [r] ∧ owner r = Owner.parent ∧ cascades r = false ∧
     findNonCascading (enoughFuel rows) 0 st = Some (None, st'))
  ∧
  (∃ st T r res st',
     build rows "parent" = Some st ∧ heap st !! 0 = Some T ∧
     relations T = [r] ∧ owner r = Owner.self ∧
     findNonCascading (enoughFuel rows) 0 st = Some (Some res, st') ∧
     found res = r).
Proof.
  split.
  - eexists _, _, _, _.
    repeat (split; [vm_compute; reflexivity|]). vm_compute. reflexivity.
  - eexists _, _, _, _, _.
    repeat (split; [vm_compute; reflexivity|]). vm_compute. reflexivity.
Qed.

(** ** The relations the build records *)

(** C5, as amended.  The tags are the other way round.  In the store
    the build returns, the relations of every table [T] are, in order,
    one per row that has [T]'s name at one of its ends.  When [T] is the
    row's child (it declares the key), the relation is tagged [parent]
    and its [table] is the object registered for the referenced table;
    otherwise [T] is the row's parent and the relation is tagged [self],
    its [table] being the object registered for the referencing table.
    In both cases [parent] is [T] itself and [cascades] holds exactly
    when the row's [on_delete] is CASCADE. *)
Theorem built_relations dbRelations target :
  ∃ st, build dbRelations target = Some st ∧
    ∀ t T, heap st !! t = Some T →
      Forall2
        (λ e r,
           parent r = t ∧
           cascades r = bool_decide (RelationRecord.on_delete e = "CASCADE"%string) ∧
           ∃ R, heap st !! table r = Some R ∧
             if decide (RelationRecord.name e = name T)
             then owner r = Owner.parent ∧
                  name R = RelationRecord.table e ∧
                  allTables st !! RelationRecord.table e = Some (table r)
             else owner r = Owner.self ∧
                  name R = RelationRecord.name e ∧
                  allTables st !! RelationRecord.name e = Some (table r))
        (filter (relevant (name T)) dbRelations)
        (relations T).
Proof.
  destruct (build_built dbRelations target) as (st & Hrun & Hb).
  exists st. split; [done|]. intros t T HT.
  eapply Forall2_impl; [apply (built_accounts _ _ _ Hb t T HT)|].
  intros e r (Hp & Hc & Hside). split_and!; [done..|].
  destruct (decide _); destruct Hside as [Ho Hreg];
    destruct (wf_registered _ (built_wf _ _ _ Hb) _ _ Hreg) as (R & HR & Hn);
    by exists R.
Qed.

(** C5 as stated fails on the tags.  With the one row from orders to
    customers, the table orders, the row's child, gets a relation
    tagged [parent], and the table customers, the row's parent, gets a
    relation tagged [self]. *)
Lemma relation_tags_swapped :
  let rows := [RelationRecord.mk "orders" "customers" "CASCADE"] in
  ∃ st,
    build rows "customers" = Some st ∧
    heap st !! 0 =
      Some {| name := "customers";
              relations := [ {| parent := 0; owner := Owner.self;
                                table := 1; cascades := true |} ];
              collected := true |} ∧
    heap st !! 1 =
      Some {| name := "orders";
              relations := [ {| parent := 1; owner := Owner.parent;
                                table := 2; cascades := true |} ];
              collected := true |}.
Proof.
  eexists. split; [vm_compute; reflexivity|].
  split; vm_compute; reflexivity.
Qed.

(** ** One object per table name *)

(** C6 fails on the code.  The target's object is the literal of line
    86, which never enters [allTables]; every other object comes from
    [tableFor].  So whenever a row that joins two different tables
    mentions the target, the store holds two objects with the target's
    name: object [0], the target's own, and the one the registry
    knows. *)
Theorem target_has_two_objects dbRelations target e :
  e ∈ dbRelations → selected e → relevant target e →
  ∃ st T0 h T,
    build dbRelations target = Some st ∧
    heap st !! 0 = Some T0 ∧ name T0 = target ∧
    allTables st !! target = Some h ∧ h ≠ 0 ∧
    heap st !! h = Some T ∧ name T = target.
Proof.
  intros He Hsel Hrel.
  destruct (build_built dbRelations target) as (st & Hrun & Hb).
  destruct (built_root _ _ _ Hb) as (T0 & HT0 & Hn0).
  destruct (target_registered _ _ _ Hb e He Hsel Hrel)
    as (h & T & Hh & Hne & HT & Hn).
  by exists st, T0, h, T.
Qed.

(** With the one row from orders to customers and the target
    customers. *)
Lemma target_has_two_objects_witness :
  ∃ st T0 h T,
    build [RelationRecord.mk "orders" "customers" "CASCADE"] "customers"
      = Some st ∧
    heap st !! 0 = Some T0 ∧ name T0 = "customers"%string ∧
    allTables st !! "customers"%string = Some h ∧ h ≠ 0 ∧
    heap st !! h = Some T ∧ name T = "customers"%string.
Proof.
  apply (target_has_two_objects _ _
           (RelationRecord.mk "orders" "customers" "CASCADE")).
  - set_solver.
  - unfold selected. simpl. discriminate.
  - right. reflexivity.
Defined.

(** The store built for that row: objects [0] and [2] are both called
    customers, the registry knows only [2], and the relation of orders
    points to [2], not to the target's own object. *)
Example orders_customers_store :
  let rows := [RelationRecord.mk "orders" "customers" "CASCADE"] in
  ∃ st,
    build rows "customers" = Some st ∧
    name <$> heap st = ["customers"; "orders"; "customers"]%string ∧
    allTables st !! "customers"%string = Some 2 ∧
    (relations <$> heap st !! 1) =
      Some [ {| parent := 1; owner := Owner.parent;
                table := 2; cascades := true |} ].
Proof.
  eexists. split; [vm_compute; reflexivity|].
  split_and!; vm_compute; reflexivity.
Qed.

(** The second object shows in the report: with tables a and b that
    reference each other and a table c that references a, the chain
    goes through a twice. *)
Example target_twice_in_chain :
  analysis [ RelationRecord.mk "a" "b" "CASCADE";
             RelationRecord.mk "b" "a" "CASCADE";
             RelationRecord.mk "c" "a" "NO ACTION" ] "a"
  = Some (Unsafe "a" "c" ["a"; "b"; "a"; "c"]%string).
Proof. vm_compute. reflexivity. Qed.

(** ** The set of checked tables *)

Lemma build_checks_nothing dbRelations target st :
  build dbRelations target = Some st → checkedTables st = ∅.
Proof.
  intros Hrun. destruct (build_built dbRelations target) as (st0 & Hrun0 & Hb).
  rewrite Hrun in Hrun0. injection Hrun0 as <-. apply Hb.
Qed.

(** C7, as amended.  [checkedTables] belongs to the module, not to a
    call: nothing ever removes a table from it.  The one search the
    program runs starts from the empty set the build leaves.  A search
    only adds to the set and leaves its root in it, so a later search
    from the same root returns null at once, whatever the first one
    found. *)
Theorem checked_tables_persist :
  (∀ dbRelations target st,
     build dbRelations target = Some st → checkedTables st = ∅)
  ∧ (∀ fuel t st res st',
       findNonCascading fuel t st = Some (res, st') →
       checkedTables st ⊆ checkedTables st' ∧ t ∈ checkedTables st' ∧
       ∀ fuel', findNonCascading (S fuel') t st' = Some (None, st')).
Proof.
  split; [apply build_checks_nothing|].
  intros fuel t st res st' Hrun.
  pose proof (findNonCascading_checks_root _ _ _ _ _ Hrun) as Hin.
  split_and!; [by apply findNonCascading_onlyChecks in Hrun as (_ & _ & ?)|done|].
  intros fuel'. rewrite findNonCascading_unfold. by rewrite decide_True.
Qed.

(** After the search of the orders schema, a second search from the
    target finds nothing. *)
Lemma checked_tables_persist_witness :
  ∃ st res st',
    build orders_example "customers" = Some st ∧
    findNonCascading (enoughFuel orders_example) 0 st = Some (res, st') ∧
    checkedTables st ⊆ checkedTables st' ∧ 0 ∈ checkedTables st' ∧
    ∀ fuel', findNonCascading (S fuel') 0 st' = Some (None, st').
Proof.
  eexists _, _, _. split; [vm_compute; reflexivity|].
  match goal with
  | |- ?run = Some (?res, ?st') ∧ _ =>
      assert (run = Some (res, st')) as Hrun by (vm_compute; reflexivity)
  end.
  split; [exact Hrun|].
  exact (proj2 checked_tables_persist _ _ _ _ _ Hrun).
Defined.

(** C7 as stated fails: run from the target of the orders schema, the
    search finds the blocking relation; run again from the same root on
    the same graph, it returns null. *)
Lemma second_search_differs :
  ∃ st res st',
    build orders_example "customers" = Some st ∧
    findNonCascading (enoughFuel orders_example) 0 st = Some (Some res, st') ∧
    heap st' = heap st ∧
    findNonCascading (enoughFuel orders_example) 0 st' = Some (None, st').
Proof.
  eexists _, _, _. split; [vm_compute; reflexivity|].
  split; [vm_compute; reflexivity|].
  split; vm_compute; reflexivity.
Qed.

(** ** Termination *)

(** C8.  For every list of rows and every target, both phases return:
    there are a store and a result that the build and then the search
    produce with any fuel from [enoughFuel] on.  The guards are what
    stops the recursion: a call on a collected table, and a search from
    a checked table, return at once and leave the store as it is. *)
Theorem analysis_terminates :
  (∀ dbRelations target,
     ∃ st res st', ∀ fuel, enoughFuel dbRelations ≤ fuel →
       collectRelations dbRelations fuel 0 (initialState target) = Some st ∧
       findNonCascading fuel 0 st = Some (res, st'))
  ∧ (∀ dbRelations fuel t st T,
       heap st !! t = Some T → collected T = true →
       collectRelations dbRelations (S fuel) t st = Some st)
  ∧ (∀ fuel t st,
       t ∈ checkedTables st →
       findNonCascading (S fuel) t st = Some (None, st)).
Proof.
  split_and!.
  - intros dbRelations target.
    destruct (canIDelete_runs dbRelations target)
      as (st & res & st' & Hbuild & _ & Hrun & _).
    exists st, res, st'. intros fuel Hfuel. split.
    + by eapply collectRelations_more.
    + by eapply findNonCascading_more.
  - intros dbRelations fuel t st T HT Hc.
    rewrite collectRelations_unfold, HT. simpl. by rewrite Hc.
  - intros fuel t st Hin. rewrite findNonCascading_unfold.
    by rewrite decide_True.
Qed.

(** ** The orders example *)

(** C9.  With the rows orders to customers (CASCADE) and order_items to
    orders (NO ACTION) and the target customers, the analysis reports the
    relation between orders and order_items with the chain customers,
    orders, order_items. *)
Theorem orders_example_report :
  analysis orders_example "customers" =
    Some (Unsafe "orders" "order_items"
            ["customers"; "orders"; "order_items"]%string).
Proof. vm_compute. reflexivity. Qed.

(** ** The search does not write to the graph *)

(** C10.  A search leaves every table as it was: the heap after it,
    with each table's name, relations and collected flag, is the heap
    before it, and so is the registry. *)
Theorem search_preserves_tables fuel t st res st' :
  findNonCascading fuel t st = Some (res, st') →
  heap st' = heap st ∧ allTables st' = allTables st.
Proof.
  intros Hrun. by apply findNonCascading_onlyChecks in Hrun as (? & ? & _).
Qed.

Lemma search_preserves_tables_witness :
  ∃ st res st',
    build orders_example "customers" = Some st ∧
    findNonCascading (enoughFuel orders_example) 0 st = Some (res, st') ∧
    heap st' = heap st ∧ allTables st' = allTables st.
Proof.
  eexists _, _, _. split; [vm_compute; reflexivity|].
  match goal with
  | |- ?run = Some (?res, ?st') ∧ _ =>
      assert (run = Some (res, st')) as Hrun by (vm_compute; reflexivity)
  end.
  split; [exact Hrun|].
  exact (search_preserves_tables _ _ _ _ _ Hrun).
Defined.

(** * Further properties *)

(** ** Invariants of the build

    An induction principle for the build: a property of the store that
    [tableFor] keeps for the names it can be called with, and that
    mutations keeping the name of a table keep, holds after
    [collectRelations] when it held before. *)
Section build_invariant.
Context (dbRelations : list RelationRecord.t).
Context (I : State → Prop) (N : string → Prop).
Hypothesis I_tableFor : ∀ n st, I st → N n → I (tableFor n st).2.
Hypothesis I_mutate : ∀ t f st st',
  (∀ T, name (f T) = name T) → mutate t f st = Some st' → I st → I st'.
Hypothesis N_rows : ∀ e st t T,
  I st → heap st !! t = Some T → e ∈ dbRelations → relevant (name T) e →
  N (RelationRecord.name e) ∧ N (RelationRecord.table e).

Section build_invariant_loops.
Context (recur : nat → State → option State).
Hypothesis Hrecur : ∀ t st st', I st → recur t st = Some st' → I st'.

Lemma relate_invariant t o other c st st' :
  I st → N other → relate recur t o other c st = Some st' → I st'.
Proof.
  intros HI HN. unfold relate.
  pose proof (I_tableFor other st HI HN) as HI1.
  destruct (tableFor other st) as [h st1]. simpl in HI1.
  destruct (mutate t _ st1) as [st2|] eqn:Hm; [|done]. simpl.
  apply Hrecur. by eapply I_mutate; [|exact Hm|].
Qed.

Lemma collectRows_invariant t rows : ∀ st st',
  rows ⊆ dbRelations → I st →
  collectRows recur t rows st = Some st' → I st'.
Proof.
  induction rows as [|e rows IH]; intros st st' Hsub HI; simpl.
  { by intros [= <-]. }
  assert (e ∈ dbRelations) as He by (apply Hsub; left).
  assert (rows ⊆ dbRelations) as Hsub' by (intros x Hx; apply Hsub; by right).
  destruct (heap st !! t) as [T|] eqn:HT; [|done]. simpl.
  destruct (decide (RelationRecord.name e = name T)) as [Heq|Hne].
  { destruct (relate recur _ _ _ _ _) as [st1|] eqn:H1; [|done]. simpl.
    apply IH; [done|]. eapply relate_invariant; [done| |done].
    by apply (N_rows e st t T); [..|left]. }
  destruct (decide (RelationRecord.table e = name T)) as [Heq'|Hne'].
  { destruct (relate recur _ _ _ _ _) as [st1|] eqn:H1; [|done]. simpl.
    apply IH; [done|]. eapply relate_invariant; [done| |done].
    by apply (N_rows e st t T); [..|right]. }
  by apply IH.
Qed.

Lemma collectRelated_invariant fuel : ∀ t i st st',
  I st → collectRelated recur fuel t i st = Some st' → I st'.
Proof.
  induction fuel as [|fuel IH]; intros t i st st' HI; [done|]. simpl.
  destruct (heap st !! t) as [T|]; [|done]. simpl.
  destruct (relations T !! i) as [r|]; [|by intros [= <-]].
  destruct (recur (table r) st) as [st1|] eqn:H1; [|done]. simpl.
  apply IH. by eapply Hrecur.
Qed.
End build_invariant_loops.

Lemma collectRelations_invariant fuel : ∀ t st st',
  I st → collectRelations dbRelations fuel t st = Some st' → I st'.
Proof.
  induction fuel as [|fuel IH]; intros t st st' HI; [done|].
  rewrite collectRelations_unfold.
  destruct (heap st !! t) as [T|]; [|done]. simpl.
  destruct (collected T); [by intros [= <-]|].
  destruct (mutate t markCollected st) as [st1|] eqn:Hm; [|done]. simpl.
  destruct (collectRows _ t dbRelations st1) as [st2|] eqn:H2; [|done]. simpl.
  apply collectRelated_invariant; [done|].
  eapply collectRows_invariant; [done|done| |done].
  by eapply I_mutate; [|exact Hm|].
Qed.
End build_invariant.

(** ** The registry *)

(** X1.  [tableFor] gets or creates: the object it returns is the one
    the registry holds for the name afterwards, a second call with the
    same name returns the same object and leaves the store as it is,
    the entries of other names and the objects already allocated are
    untouched, and an object it had to create is new, carries the name,
    has no relations and is not collected. *)
Theorem tableFor_get_or_create n st :
  allTables (tableFor n st).2 !! n = Some (tableFor n st).1
  ∧ tableFor n (tableFor n st).2 = tableFor n st
  ∧ (∀ m, m ≠ n → allTables (tableFor n st).2 !! m = allTables st !! m)
  ∧ (∀ h T, heap st !! h = Some T → heap (tableFor n st).2 !! h = Some T)
  ∧ (allTables st !! n = None →
     heap st !! (tableFor n st).1 = None ∧
     heap (tableFor n st).2 !! (tableFor n st).1 = Some (newTable n)).
Proof.
  split_and!.
  - apply tableFor_registered.
  - pose proof (tableFor_registered n st) as Hreg.
    destruct (tableFor n st) as [h st1]. simpl in *.
    by apply tableFor_hit.
  - intros m Hne. destruct (allTables st !! n) as [h|] eqn:Hh.
    + by rewrite (tableFor_hit _ _ _ Hh).
    + rewrite (tableFor_miss _ _ Hh). simpl. by rewrite lookup_insert_ne.
  - intros h T. apply tableFor_old.
  - intros Hh. rewrite (tableFor_miss _ _ Hh). simpl. split.
    + by apply lookup_ge_None.
    + rewrite lookup_app_r by done. by rewrite Nat.sub_diag.
Qed.

Lemma registersAll_tableFor n st :
  registersAll st → registersAll (tableFor n st).2.
Proof.
  intros Hall. destruct (allTables st !! n) as [h'|] eqn:Hh.
  { by rewrite (tableFor_hit _ _ _ Hh). }
  rewrite (tableFor_miss _ _ Hh). intros h T HT Hne. simpl in *.
  apply lookup_app_Some in HT as [HT|[Hge HT]].
  - pose proof (Hall h T HT Hne) as Hreg.
    rewrite lookup_insert_ne; [done|]. intros ->. congruence.
  - apply list_lookup_singleton_Some in HT as [Hz <-]. simpl.
    rewrite lookup_insert_eq. f_equal. lia.
Qed.

Lemma registersAll_mutate t f st st' :
  (∀ T, name (f T) = name T) → mutate t f st = Some st' →
  registersAll st → registersAll st'.
Proof.
  intros Hname Hm Hall. unfold mutate in Hm.
  destruct (heap st !! t) as [T|] eqn:HT; [|done]. simpl in Hm.
  injection Hm as <-. intros h T' HT' Hne. simpl in *.
  rewrite (lookup_mutated _ _ _ _ _ HT) in HT'.
  destruct (decide (h = t)) as [->|]; [|by apply Hall].
  injection HT' as <-. rewrite Hname. by apply Hall.
Qed.

Lemma build_registersAll dbRelations target st :
  build dbRelations target = Some st → registersAll st.
Proof.
  apply (collectRelations_invariant dbRelations registersAll (λ _, True)).
  - intros n st0 H0 _. by apply registersAll_tableFor.
  - apply registersAll_mutate.
  - done.
  - intros h T HT Hne. simpl in HT.
    apply list_lookup_singleton_Some in HT as [-> _]. done.
Qed.

(** X2.  After the build the registry and the objects other than the
    target's own literal correspond one to one: a registered name leads
    to an object of that name that is not object [0], every object
    other than [0] is the one registered under its name, and so two such
    objects with the same name are the same object. *)
Theorem registry_names_objects dbRelations target :
  ∃ st, build dbRelations target = Some st ∧
    (∀ n h, allTables st !! n = Some h →
       h ≠ 0 ∧ ∃ T, heap st !! h = Some T ∧ name T = n) ∧
    (∀ h T, heap st !! h = Some T → h ≠ 0 →
       allTables st !! name T = Some h) ∧
    (∀ h1 h2 T1 T2,
       heap st !! h1 = Some T1 → heap st !! h2 = Some T2 →
       h1 ≠ 0 → h2 ≠ 0 → name T1 = name T2 → h1 = h2).
Proof.
  destruct (build_built dbRelations target) as (st & Hrun & Hb).
  pose proof (build_registersAll _ _ _ Hrun) as Hall.
  exists st. split_and!; [done| | |].
  - intros n h Hh. split.
    + intros ->. by apply (wf_apart _ (built_wf _ _ _ Hb) n).
    + by apply (wf_registered _ (built_wf _ _ _ Hb)).
  - exact Hall.
  - intros h1 h2 T1 T2 H1 H2 Hn1 Hn2 Heq.
    pose proof (Hall _ _ H1 Hn1) as Hr1. pose proof (Hall _ _ H2 Hn2) as Hr2.
    rewrite Heq in Hr1. congruence.
Qed.

(** ** The connected component *)

Lemma connected_relevant dbRelations target nm e :
  connected dbRelations target nm → e ∈ dbRelations → relevant nm e →
  connected dbRelations target (RelationRecord.name e) ∧
  connected dbRelations target (RelationRecord.table e).
Proof.
  intros Hc He [<-|<-]; (split; [|]); try done.
  - by apply connected_parent.
  - by apply connected_child.
Qed.

Lemma build_connected dbRelations target st :
  build dbRelations target = Some st →
  ∀ h T, heap st !! h = Some T → connected dbRelations target (name T).
Proof.
  apply (collectRelations_invariant dbRelations
           (λ st, ∀ h T, heap st !! h = Some T →
                         connected dbRelations target (name T))
           (connected dbRelations target)).
  - intros n st0 H0 Hn h T HT.
    destruct (tableFor_new _ _ _ _ HT) as [?|(_ & -> & _)]; [by eapply H0|done].
  - intros t f st0 st1 Hname Hm H0 h T HT. unfold mutate in Hm.
    destruct (heap st0 !! t) as [T0|] eqn:HT0; [|done]. simpl in Hm.
    injection Hm as <-. simpl in HT.
    rewrite (lookup_mutated _ _ _ _ _ HT0) in HT.
    destruct (decide (h = t)) as [->|]; [|by eapply H0].
    injection HT as <-. rewrite Hname. by eapply H0.
  - intros e st0 t T H0 HT He Hrel.
    eapply connected_relevant; [by eapply H0|done..].
  - intros h T HT. simpl in HT.
    apply list_lookup_singleton_Some in HT as [_ <-]. constructor.
Qed.

(** X3.  The build covers the connected component of the target and
    nothing else: a table name has an object in the store exactly when
    it is joined to the target by foreign keys followed in either
    direction. *)
Theorem built_tables_connected dbRelations target :
  ∃ st, build dbRelations target = Some st ∧
    ∀ n, (∃ h T, heap st !! h = Some T ∧ name T = n)
         ↔ connected dbRelations target n.
Proof.
  destruct (build_built dbRelations target) as (st & Hrun & Hb).
  exists st. split; [done|]. intros n. split.
  - intros (h & T & HT & <-). by eapply build_connected.
  - assert (∀ h T e, heap st !! h = Some T → e ∈ dbRelations →
              relevant (name T) e →
              (∃ h' T', heap st !! h' = Some T' ∧ name T' = RelationRecord.name e)
              ∧ (∃ h' T', heap st !! h' = Some T' ∧ name T' = RelationRecord.table e))
      as Hnext.
    { intros h T e HT He Hrel.
      pose proof (built_accounts _ _ _ Hb h T HT) as Hacc. unfold accounts in Hacc.
      assert (e ∈ filter (relevant (name T)) dbRelations) as Hin
        by by apply list_elem_of_filter.
      apply list_elem_of_lookup_1 in Hin as [i Hi].
      destruct (Forall2_lookup_l _ _ _ _ _ Hacc Hi) as (r & _ & _ & _ & Hside).
      destruct (decide (RelationRecord.name e = name T)) as [Heq|Hne];
        destruct Hside as [_ Hreg];
        destruct (wf_registered _ (built_wf _ _ _ Hb) _ _ Hreg) as (R & HR & HnR).
      - split; [by exists h, T|by exists (table r), R].
      - destruct Hrel as [?|Heq]; [done|].
        split; [by exists (table r), R|by exists h, T]. }
    induction 1 as [|e Hc (h & T & HT & Hn) He|e Hc (h & T & HT & Hn) He].
    + destruct (built_root _ _ _ Hb) as (T0 & HT0 & Hn0). by exists 0, T0.
    + apply (Hnext h T e HT He). by right.
    + apply (Hnext h T e HT He). by left.
Qed.

(** ** Building twice *)

(** X4.  The build leaves every table collected, so it is idempotent:
    a further [collectRelations] on any table of the store it returned
    gives that store back unchanged. *)
Theorem build_idempotent dbRelations target :
  ∃ st, build dbRelations target = Some st ∧
    (∀ h T, heap st !! h = Some T → collected T = true) ∧
    ∀ fuel t, t < length (heap st) →
      collectRelations dbRelations (S fuel) t st = Some st.
Proof.
  destruct (build_built dbRelations target) as (st & Hrun & Hb).
  assert (∀ h T, heap st !! h = Some T → collected T = true) as Hcol.
  { intros h T HT.
    destruct (built_complete _ _ _ Hb h) as (T' & HT' & Hc & _).
    - by eapply lookup_lt_Some.
    - congruence. }
  exists st. split_and!; [done..|].
  intros fuel t [T HT]%lookup_lt_is_Some_2.
  rewrite collectRelations_unfold, HT. simpl. by rewrite (Hcol _ _ HT).
Qed.

(** ** The chain reported *)

Section chain_of_witness.
Context (dbRelations : list RelationRecord.t) (target : string).
Context (st : State) (Hbuilt : built dbRelations target st).

Lemma witness_blockedPath t res :
  witness (heap st) t res →
  ∀ T, heap st !! t = Some T →
    blockedPath dbRelations (relationChain res) ∧
    head (relationChain res) = Some (name T).
Proof.
  induction 1 as [t T r P C HT Hr Ho Hc HP HC
                 |t T r P res HT Hr Ho Hc Hw IH HP]; intros T' HT'.
  - assert (T' = T) as -> by congruence.
    destruct (wf_relation _ (built_wf _ _ _ Hbuilt) _ _ _ HT Hr) as [Hp _].
    rewrite Hp in HP. assert (P = T) as -> by congruence.
    destruct (relation_row _ _ _ Hbuilt t T r)
      as (e & C' & He & Ht & Hne & HC' & Hn & Hce); [done..|].
    assert (C' = C) as -> by congruence.
    simpl. split; [|done]. rewrite <- Ht, Hn.
    apply blockedPath_last; [done| |congruence].
    unfold selected. congruence.
  - assert (T' = T) as -> by congruence.
    destruct (wf_relation _ (built_wf _ _ _ Hbuilt) _ _ _ HT Hr) as [Hp _].
    rewrite Hp in HP. assert (P = T) as -> by congruence.
    destruct (relation_row _ _ _ Hbuilt t T r)
      as (e & C' & He & Ht & Hne & HC' & Hn & Hce); [done..|].
    destruct (IH C' HC') as [Hpath Hhead].
    simpl. split; [|done]. rewrite <- Ht.
    apply blockedPath_step; [done| |congruence|congruence|done].
    unfold selected. congruence.
Qed.
End chain_of_witness.

(** X5.  The chain of an Unsafe report is a path of the schema from the
    target: each table in it is referenced by the next one through a
    row between two different tables, every such row cascades except
    the last one, which does not. *)
Theorem chain_is_blocked_path dbRelations target p c chain :
  analysis dbRelations target = Some (Unsafe p c chain) →
  head chain = Some target ∧ blockedPath dbRelations chain.
Proof.
  destruct (canIDelete_runs dbRelations target)
    as (st & res & st' & _ & Hb & _ & Hrun & (Hh & _ & _) & Hres).
  unfold analysis. rewrite Hrun. simpl.
  destruct res as [res|]; [|done]. unfold report.
  destruct (heap st' !! parent (found res)) as [P|]; [|done]. simpl.
  destruct (heap st' !! table (found res)) as [C|]; [|done]. simpl.
  intros [= _ _ <-].
  destruct (built_root _ _ _ Hb) as (T0 & HT0 & <-).
  destruct (witness_blockedPath _ _ _ Hb 0 res Hres T0 HT0) as [Hpath Hhead].
  done.
Qed.

Lemma chain_is_blocked_path_witness :
  head ["customers"; "orders"; "order_items"]%string = Some "customers"%string ∧
  blockedPath orders_example ["customers"; "orders"; "order_items"]%string.
Proof.
  apply (chain_is_blocked_path orders_example "customers" "orders" "order_items").
  vm_compute. reflexivity.
Defined.

(** ** The verdict and the rows *)

Lemma cascadeReachable_selected rows rows' target n :
  (∀ e, selected e → e ∈ rows → e ∈ rows') →
  cascadeReachable rows target n → cascadeReachable rows' target n.
Proof.
  intros Hsub. induction 1 as [|e Hreach IH He Hc]; [constructor|].
  destruct (decide (RelationRecord.name e = RelationRecord.table e)) as [->|Hne].
  - done.
  - constructor; [done| |done]. by apply Hsub.
Qed.

(** The analysis answers Safe exactly when no row between two different
    tables that references a table reachable along cascading rows fails
    to cascade. *)
Lemma analysis_safe_iff dbRelations target :
  analysis dbRelations target = Some Safe ↔
  ∀ e, e ∈ dbRelations → selected e →
    cascadeReachable dbRelations target (RelationRecord.table e) →
    isCascade e = true.
Proof.
  destruct (analysis_outcome dbRelations target)
    as [[Hrun Hall]|(b & pre & Hrun & _ & Hb & Hcb & Hne & Hreach)].
  - split; [|done]. intros _ e He Hsel Hr. by apply Hall.
  - rewrite Hrun. split; [done|]. intros Hall.
    specialize (Hall b Hb Hne Hreach). congruence.
Qed.

(** X6.  Whether the analysis answers Safe depends only on which rows
    between two different tables the schema has: not on the order of the
    rows, not on repeated rows, and not on the rows by which a table
    references itself. *)
Theorem verdict_depends_on_selected_rows rows rows' target :
  (∀ e, selected e → (e ∈ rows ↔ e ∈ rows')) →
  (analysis rows target = Some Safe ↔ analysis rows' target = Some Safe).
Proof.
  intros Hsame. rewrite !analysis_safe_iff.
  assert (∀ r1 r2, (∀ e, selected e → (e ∈ r1 ↔ e ∈ r2)) →
    (∀ e, e ∈ r1 → selected e →
       cascadeReachable r1 target (RelationRecord.table e) → isCascade e = true) →
    (∀ e, e ∈ r2 → selected e →
       cascadeReachable r2 target (RelationRecord.table e) → isCascade e = true))
    as Hdir.
  { intros r1 r2 H12 Hall e He Hsel Hr. apply Hall; [by apply H12|done|].
    eapply cascadeReachable_selected; [|done]. intros e' Hs' He'. by apply H12. }
  split; apply Hdir; [done|]. intros e Hsel. by rewrite Hsame.
Qed.

(** The orders schema with its rows in the other order, one of them
    twice, and a self-reference added. *)
Lemma verdict_depends_on_selected_rows_witness :
  analysis orders_example "orders" = Some Safe ↔
  analysis
    [ RelationRecord.mk "order_items" "orders" "NO ACTION";
      RelationRecord.mk "orders" "orders" "NO ACTION";
      RelationRecord.mk "orders" "customers" "CASCADE";
      RelationRecord.mk "order_items" "orders" "NO ACTION" ] "orders"
    = Some Safe.
Proof.
  apply verdict_depends_on_selected_rows.
  intros e Hsel. unfold orders_example. rewrite !elem_of_cons, !elem_of_nil.
  split.
  - intros [->|[->|[]]]; auto.
  - intros [->|[->|[->|[->|[]]]]]; auto; exfalso; apply Hsel; reflexivity.
Defined.

(** ** The tables the search checks *)

Section checks_descendants.
Context (hp : list Table) (root : nat).

Section checks_descendants_loop.
Context (recur : nat → State → option (option Result * State)).
Hypothesis Hrecur : ∀ t st res st',
  checksDescendants hp root st → descends hp root t →
  recur t st = Some (res, st') → checksDescendants hp root st'.

Lemma findInRelations_descendants fuel : ∀ t i st res st',
  checksDescendants hp root st → descends hp root t →
  findInRelations recur fuel t i st = Some (res, st') →
  checksDescendants hp root st'.
Proof.
  induction fuel as [|fuel IH]; intros t i st res st' Hinv Ht; [done|].
  rewrite findInRelations_unfold.
  destruct (heap st !! t) as [T|] eqn:HT; [|done]. simpl.
  destruct (relations T !! i) as [r|] eqn:Hr; [|by intros [= <- <-]].
  destruct (owner r) eqn:Ho; [by apply IH|].
  destruct (cascades r) eqn:Hc; simpl.
  - destruct (recur (table r) st) as [[res1 st1]|] eqn:H1; [|done]. simpl.
    assert (checksDescendants hp root st1) as Hinv1.
    { eapply Hrecur; [done| |done].
      destruct Hinv as [Hh _]. rewrite Hh in HT.
      eapply descends_step; [done..| |done|done].
      by eapply list_elem_of_lookup_2. }
    destruct res1 as [res1|]; [|by apply IH].
    destruct (heap st1 !! parent r); [|done]. simpl. by intros [= <- <-].
  - destruct (heap st !! parent r); [|done]. simpl.
    destruct (heap st !! table r); [|done]. simpl. by intros [= <- <-].
Qed.
End checks_descendants_loop.

Lemma findNonCascading_descendants fuel : ∀ t st res st',
  checksDescendants hp root st → descends hp root t →
  findNonCascading fuel t st = Some (res, st') → checksDescendants hp root st'.
Proof.
  induction fuel as [|fuel IH]; intros t st res st' Hinv Ht; [done|].
  rewrite findNonCascading_unfold.
  destruct (decide _); [by intros [= <- <-]|].
  apply findInRelations_descendants; [done| |done].
  destruct Hinv as [Hh Hall]. split; [done|]. simpl.
  intros h [->%elem_of_singleton|Hin]%elem_of_union; [done|by apply Hall].
Qed.
End checks_descendants.

Lemma descends_valid st t h :
  wf st → t < length (heap st) → descends (heap st) t h →
  h < length (heap st).
Proof.
  intros Hwf Ht. induction 1 as [|h T r Hd IH HT Hr Ho Hc]; [done|].
  by destruct (wf_relation _ Hwf _ _ _ HT Hr).
Qed.

(** X7.  The search checks only tables that deleting from the target
    can reach: every table left in [checkedTables] has a name reachable
    from the target along rows that cascade.  When the search finds
    nothing it has checked them all: every name so reachable belongs to
    a checked table. *)
Theorem search_checks_reachable_tables dbRelations target :
  ∃ res st',
    canIDelete dbRelations target = Some (res, st') ∧
    (∀ h, h ∈ checkedTables st' →
       ∃ T, heap st' !! h = Some T ∧
            cascadeReachable dbRelations target (name T)) ∧
    (res = None →
     ∀ n, cascadeReachable dbRelations target n →
       ∃ h T, h ∈ checkedTables st' ∧ heap st' !! h = Some T ∧ name T = n).
Proof.
  destruct (canIDelete_runs dbRelations target)
    as (st & res & st' & _ & Hb & Hfind & Hrun & (Hh & _ & _) & Hres).
  exists res, st'. split; [done|].
  destruct (built_root _ _ _ Hb) as (T0 & HT0 & Hn0).
  pose proof (lookup_lt_Some _ _ _ HT0) as Hlt.
  split.
  - assert (checksDescendants (heap st) 0 st') as [_ Hall].
    { eapply findNonCascading_descendants; [|constructor|exact Hfind].
      split; [done|]. intros h. rewrite (built_checked _ _ _ Hb). set_solver. }
    intros h Hin. specialize (Hall h Hin).
    pose proof (descends_valid st 0 h (built_wf _ _ _ Hb) Hlt Hall) as Hv.
    destruct (lookup_lt_is_Some_2 _ _ Hv) as [T HT].
    exists T. rewrite Hh. split; [done|].
    by eapply descends_cascadeReachable.
  - intros ->. destruct Hres as [H0 Hcl]. intros n Hreach.
    destruct (cascadeReachable_descends _ _ _ Hb _ Hreach) as (h & T & Hd & HT & Hn).
    exists h, T. rewrite Hh. split_and!; [|done..].
    by apply (closed_descends (heap st) _ 0 Hcl H0 h Hd).
Qed.

(** ** The lines of the chain *)

Lemma string_app_assoc (a b c : string) :
  (a +:+ b) +:+ c = a +:+ (b +:+ c).
Proof.
  induction a as [|x a IH]; [done|].
  change (String x ((a +:+ b) +:+ c) = String x (a +:+ (b +:+ c))).
  by rewrite IH.
Qed.

Lemma printChain_indented chain : ∀ k,
  printChain (spaces (2 * S k) +:+ "└ ") chain =
  imap (λ i line, spaces (2 * (S k + i)) +:+ "└ " +:+ line) chain.
Proof.
  induction chain as [|line chain IH]; intros k; [done|].
  cbn [printChain imap]. f_equal.
  - rewrite Nat.add_0_r. apply string_app_assoc.
  - replace (2 * S k) with (S (S (2 * k))) by lia.
    cbn [spaces].
    change ("  " +:+ (if decide (String.length
                        ((" " +:+ " " +:+ spaces (2 * k)) +:+ "└ ") = 0)
                     then "└ " else (" " +:+ " " +:+ spaces (2 * k)) +:+ "└ "))%string
      with (spaces (S (S (S (S (2 * k))))) +:+ "└ ")%string.
    replace (S (S (S (S (2 * k))))) with (2 * S (S k)) by lia.
    rewrite IH. apply imap_ext. intros i x _. unfold compose.
    by replace (S k + S i) with (S (S k) + i) by lia.
Qed.

(** X8.  The chain is printed one table per line: the first name as it
    is, and the name at position [i] from 1 on behind [2 * i] spaces and
    the corner mark. *)
Theorem printChain_lines chain :
  printChain "" chain =
  imap (λ i line,
          match i with
          | 0 => line
          | S _ => spaces (2 * i) +:+ "└ " +:+ line
          end) chain.
Proof.
  destruct chain as [|first chain]; [done|].
  cbn [printChain imap]. f_equal.
  change ("  " +:+ (if decide (String.length "" = 0) then "└ " else ""))%string
    with (spaces (2 * 1) +:+ "└ ")%string.
  rewrite printChain_indented. apply imap_ext. intros i x _. done.
Qed.

(** ** The command line and the exit code *)

Lemma atFromEnd_last_two {A} (pre : list A) (a b : A) :
  atFromEnd (pre ++ [a; b]) 2 = Some a ∧ atFromEnd (pre ++ [a; b]) 1 = Some b.
Proof.
  unfold atFromEnd. rewrite !length_app. simpl.
  rewrite !decide_True by lia. split.
  - rewrite lookup_app_r by lia.
    by replace (length pre + 2 - 2 - length pre) with 0 by lia.
  - rewrite lookup_app_r by lia.
    by replace (length pre + 2 - 1 - length pre) with 1 by lia.
Qed.

Lemma split_last_two {A} (l : list A) :
  2 ≤ length l → ∃ pre a b, l = pre ++ [a; b].
Proof.
  intros Hlen.
  exists (take (length l - 2) l).
  pose proof (take_drop (length l - 2) l) as Hl.
  destruct (drop (length l - 2) l) as [|a [|b [|c rest]]] eqn:Hd.
  - apply (f_equal length) in Hd. rewrite length_drop in Hd. simpl in Hd. lia.
  - apply (f_equal length) in Hd. rewrite length_drop in Hd. simpl in Hd. lia.
  - by exists a, b.
  - apply (f_equal length) in Hd. rewrite length_drop in Hd. simpl in Hd. lia.
Qed.

Lemma analysis_total dbRelations target :
  ∃ rep, analysis dbRelations target = Some rep.
Proof.
  destruct (analysis_outcome dbRelations target)
    as [[Hrun _]|(b & pre & Hrun & _)]; eauto.
Qed.

Lemma analysis_safe_iff_reachable dbRelations target :
  analysis dbRelations target = Some Safe ↔
  ∀ e, e ∈ dbRelations → selected e →
    reachable dbRelations target (RelationRecord.table e) →
    isCascade e = true.
Proof.
  split; [|apply all_cascading_safe].
  intros Hsafe e He Hsel Hreach.
  pose proof (proj1 (analysis_safe_iff dbRelations target) Hsafe) as Hall.
  destruct (reachable_first_blocking _ _ _ Hreach)
    as [Hcr|(b & Hb & Hcb & Hne & Hrb)]; [by apply Hall|].
  specialize (Hall b Hb Hne Hrb). congruence.
Qed.

(** What is printed for a report: the exit code is 0 for [Safe] and 1
    otherwise. *)
Lemma printResult_report result st rep :
  report result st = Some rep →
  ∃ run, printResult result st = Some run ∧
         (code run = 0 ∨ code run = 1) ∧ (code run = 0 ↔ rep = Safe).
Proof.
  unfold report, printResult. destruct result as [result|].
  - destruct (heap st !! parent (found result)) as [P|]; [|done]. simpl.
    destruct (heap st !! table (found result)) as [C|]; [|done]. simpl.
    intros [= <-]. eexists. split; [done|]. simpl. split; [by right|done].
  - intros [= <-]. eexists. split; [done|]. simpl. split; [by left|done].
Qed.

(** The script after the test for the help flags. *)
Lemma main_no_help env argv :
  "--help"%string ∉ argv → "-h"%string ∉ argv →
  main env argv =
    let args := drop 2 argv in
    if decide (length args < 2) then
      Some {| printed := [(stderr, "can-i-delete <db-file> <target-table>")];
              code := 1 |}
    else
      dbFilePath ← atFromEnd args 2;
      targetTable ← atFromEnd args 1;
      if negb (fileExists env dbFilePath) then
        Some {| printed :=
                  [(stderr, "Database file not found: " +:+ dbFilePath)];
                code := 1 |}
      else
        match tableCount env dbFilePath targetTable with
        | None | Some 0 =>
            Some {| printed := [(stderr, "Table not found: " +:+ targetTable)];
                    code := 1 |}
        | Some (S _) =>
            '(result, st) ← canIDelete (foreignKeys env dbFilePath) targetTable;
            printResult result st
        end.
Proof.
  intros H1 H2. unfold main.
  by rewrite !bool_decide_eq_false_2.
Qed.

(** X9.  The script always ends, with exit code 0 or 1.  The code is 0
    exactly when a help flag is among the arguments, or when there are
    at least two arguments after the first two, the last but one names a
    file that exists, the last names a table the database has, and every
    foreign key by which another table references a table reachable from
    that one cascades. *)
Theorem main_exit_code env argv :
  ∃ run, main env argv = Some run ∧
    (code run = 0 ∨ code run = 1) ∧
    (code run = 0 ↔
       "--help"%string ∈ argv ∨ "-h"%string ∈ argv ∨
       ∃ pre db tgt n,
         drop 2 argv = pre ++ [db; tgt] ∧
         fileExists env db = true ∧
         tableCount env db tgt = Some (S n) ∧
         ∀ e, e ∈ foreignKeys env db → selected e →
           reachable (foreignKeys env db) tgt (RelationRecord.table e) →
           isCascade e = true).
Proof.
  destruct (decide ("--help"%string ∈ argv)) as [Hh1|Hh1].
  { eexists. unfold main. rewrite bool_decide_eq_true_2 by done. simpl.
    split; [done|]. simpl. split; [by left|]. split; auto. }
  destruct (decide ("-h"%string ∈ argv)) as [Hh2|Hh2].
  { eexists. unfold main. rewrite (bool_decide_eq_true_2 (_ ∈ argv) Hh2).
    rewrite orb_true_r. split; [done|]. simpl. split; [by left|]. split; auto. }
  rewrite main_no_help by done. cbv zeta.
  assert (∀ P Q : Prop, (P ↔ Q) →
            (P ↔ "--help"%string ∈ argv ∨ "-h"%string ∈ argv ∨ Q)) as Hdrop.
  { intros P Q HPQ. rewrite HPQ. tauto. }
  destruct (decide (length (drop 2 argv) < 2)) as [Hshort|Hlong].
  { eexists. split; [done|]. simpl. split; [by right|]. apply Hdrop.
    split; [done|]. intros (pre & db & tgt & n & Hargs & _).
    rewrite Hargs, length_app in Hshort. simpl in Hshort. lia. }
  destruct (split_last_two (drop 2 argv)) as (pre & db & tgt & Hargs); [lia|].
  rewrite Hargs.
  destruct (atFromEnd_last_two pre db tgt) as [-> ->]. simpl.
  assert (∀ pre' db' tgt', pre ++ [db; tgt] = pre' ++ [db'; tgt'] →
            db' = db ∧ tgt' = tgt) as Huniq.
  { intros pre' db' tgt' Heq. apply app_inj_2 in Heq as [_ Heq]; [|done].
    by injection Heq as -> ->. }
  destruct (fileExists env db) eqn:Hfile; simpl.
  2:{ eexists. split; [done|]. simpl. split; [by right|]. apply Hdrop.
      split; [done|]. intros (pre' & db' & tgt' & n & Heq & Hf & _).
      destruct (Huniq _ _ _ Heq) as [-> ->]. congruence. }
  destruct (tableCount env db tgt) as [[|n]|] eqn:Hcount.
  1,3: eexists; (split; [done|]); simpl; (split; [by right|]); apply Hdrop;
       (split; [done|]); intros (pre' & db' & tgt' & n' & Heq & _ & Hc & _);
       destruct (Huniq _ _ _ Heq) as [-> ->]; congruence.
  destruct (analysis_total (foreignKeys env db) tgt) as [rep Hrep].
  unfold analysis in Hrep.
  destruct (canIDelete (foreignKeys env db) tgt) as [[result st]|] eqn:Hrun;
    [|done].
  simpl in *.
  destruct (printResult_report _ _ _ Hrep) as (run & Hprint & Hcode & Hzero).
  exists run. split; [done|]. split; [done|]. apply Hdrop. rewrite Hzero.
  assert (rep = Safe ↔ analysis (foreignKeys env db) tgt = Some Safe) as ->.
  { unfold analysis. rewrite Hrun. simpl. rewrite Hrep.
    split; [by intros ->|by intros [= ->]]. }
  rewrite analysis_safe_iff_reachable. split.
  - intros Hall. by exists pre, db, tgt, n.
  - intros (pre' & db' & tgt' & n' & Heq & _ & _ & Hall).
    by destruct (Huniq _ _ _ Heq) as [-> ->].
Qed.

(** X10.  Only the last two arguments count: arguments between the
    script name and the last two, none of them a help flag, change
    nothing to what the script prints and to its exit code. *)
Theorem main_ignores_leading_arguments env runtime script extra db tgt :
  "--help"%string ∉ extra → "-h"%string ∉ extra →
  main env (runtime :: script :: extra ++ [db; tgt]) =
  main env [runtime; script; db; tgt].
Proof.
  intros H1 H2.
  assert (∀ flag : string, flag ∉ extra →
            (flag ∈ runtime :: script :: extra ++ [db; tgt]
             ↔ flag ∈ [runtime; script; db; tgt])) as Hflag.
  { intros flag Hf. rewrite !elem_of_cons, elem_of_app, !elem_of_cons. tauto. }
  unfold main.
  rewrite (bool_decide_ext _ _ (Hflag "--help"%string H1)).
  rewrite (bool_decide_ext _ _ (Hflag "-h"%string H2)).
  destruct (_ || _); [done|]. cbn [drop]. rewrite !drop_0.
  destruct (atFromEnd_last_two extra db tgt) as [-> ->].
  destruct (atFromEnd_last_two [] db tgt) as [Ha Hb]. simpl in Ha, Hb.
  rewrite Ha, Hb.
  rewrite (decide_False (P := length (extra ++ [db; tgt]) < 2)).
  - by rewrite (decide_False (P := length [db; tgt] < 2)) by (simpl; lia).
  - rewrite length_app. simpl. lia.
Qed.

(** With an argument put before the database file. *)
Lemma main_ignores_leading_arguments_witness :
  main shop_env ["bun"; "can-i-delete"; "--verbose"; "shop.db"; "customers"]%string
  = main shop_env ["bun"; "can-i-delete"; "shop.db"; "customers"]%string.
Proof.
  apply (main_ignores_leading_arguments shop_env
           "bun" "can-i-delete" ["--verbose"%string] "shop.db" "customers").
  - intros H. apply list_elem_of_singleton in H. discriminate.
  - intros H. apply list_elem_of_singleton in H. discriminate.
Defined.

(** ** Fewer foreign keys *)

(** X11.  Dropping foreign keys never turns Safe into Unsafe: when the
    analysis answers Safe for a schema, it answers Safe for every schema
    whose rows between two different tables are among those of the
    first. *)
Theorem fewer_rows_stay_safe rows rows' target :
  (∀ e, selected e → e ∈ rows → e ∈ rows') →
  analysis rows' target = Some Safe →
  analysis rows target = Some Safe.
Proof.
  intros Hsub. rewrite !analysis_safe_iff. intros Hall e He Hsel Hreach.
  apply Hall; [by apply Hsub|done|].
  by eapply cascadeReachable_selected.
Qed.

(** The orders schema answers Safe for order_items, and so does the
    schema left when the foreign key of orders is dropped. *)
Lemma fewer_rows_stay_safe_witness :
  analysis [RelationRecord.mk "order_items" "orders" "NO ACTION"] "order_items"
  = Some Safe.
Proof.
  apply (fewer_rows_stay_safe _ orders_example).
  - intros e _. unfold orders_example. rewrite !elem_of_cons. tauto.
  - vm_compute. reflexivity.
Defined.
